(** * Exercise 08: matrix multiplication kernels and their driver

    A shallow embedding of [Exercises/Exercise08/Cpp/matmul.cpp]: the two
    OpenCL kernels held in [kernelsource] ([mmul] and
    [optimized_rowCPerWorkItemAPrivateBLocal_mmul]) and the host function
    [main] that launches them.

    - [float] is IEEE binary32, taken from the Standard Library's
      [SpecFloat] with precision 24 and maximal exponent 128.  [mmul] and
      the tiled kernel take [tmp += a * b] as one rounded multiplication
      followed by one rounded addition.  OpenCL C also lets a device
      contract the statement into one fused operation ([FP_CONTRACT] is on
      unless the program turns it off, and line 161 builds the program
      without options): [mmul_with] is the kernel [mmul] on a device that
      evaluates the statement by any given function [mac].
    - [int] is a 32-bit two's complement integer, kept in [Z] with the
      wrap-around of every addition and multiplication written out.
    - Buffers are lists; every access is bounds-checked and faults when it
      leaves the buffer.  Every access is also recorded in a log, tagged
      with the work-item that made it.
    - Kernel code runs in a state-and-error monad [K] over the device memory
      a work-group can change: the matrix [C], the local scratch [Bwrk] and
      the access log.  The matrices [A] and [B] are only ever read.
    - [main] runs in a second monad [H] over the host vectors, the device
      buffers and the output, in which a step falls through, returns,
      raises [cl::Error] or hits undefined behaviour in a kernel.  Time is
      not modelled: the timer has no effect on data or control.  Neither
      are exceptions other than [cl::Error] (a failed allocation of the
      host vectors, say): no handler of [main] catches them, and a run
      that raises one does not return from [main].
    - The headers [matmul.hpp], [matrix_lib.hpp], [device_picker.hpp] and
      [util.hpp] are not at hand.  What they supply to a run is gathered in
      the record [platform]; [seq_mat_mul_sdot] and [zero_mat] follow the
      specification. *)

From Stdlib Require Import ZArith Lia Bool.
From Stdlib Require Import Strings.String.
From Stdlib Require Import Floats.SpecFloat.
From stdpp Require Import base list list_numbers.

Local Open Scope Z_scope.

(** ** Single-precision floating point *)

Definition float32 : Type := spec_float.

Definition f32_prec : Z := 24.
Definition f32_emax : Z := 128.

Definition f32_add (x y : float32) : float32 := SFadd f32_prec f32_emax x y.
Definition f32_mul (x y : float32) : float32 := SFmul f32_prec f32_emax x y.

(** The literal [0.0f]. *)
Definition f32_zero : float32 := S754_zero false.

(** An infinity of sign [s] plus [c]. *)
Definition add_infinity (s : bool) (c : float32) : float32 :=
  match c with
  | S754_nan => S754_nan
  | S754_infinity sc => if Bool.eqb s sc then c else S754_nan
  | _ => S754_infinity s
  end.

(** The fused multiply-add [a * b + c]: the exact product is added to [c]
    and the sum is rounded once. *)
Definition f32_fma (a b c : float32) : float32 :=
  match a, b with
  | S754_nan, _ => S754_nan
  | _, S754_nan => S754_nan
  | S754_infinity _, S754_zero _ => S754_nan
  | S754_zero _, S754_infinity _ => S754_nan
  | S754_infinity sa, S754_infinity sb => add_infinity (xorb sa sb) c
  | S754_infinity sa, S754_finite sb _ _ => add_infinity (xorb sa sb) c
  | S754_finite sa _ _, S754_infinity sb => add_infinity (xorb sa sb) c
  | S754_zero sa, S754_zero sb => f32_add (S754_zero (xorb sa sb)) c
  | S754_zero sa, S754_finite sb _ _ => f32_add (S754_zero (xorb sa sb)) c
  | S754_finite sa _ _, S754_zero sb => f32_add (S754_zero (xorb sa sb)) c
  | S754_finite sa ma ea, S754_finite sb mb eb =>
      match c with
      | S754_nan => S754_nan
      | S754_infinity _ => c
      | S754_zero _ => f32_mul a b
      | S754_finite sc mc ec =>
          let sp := xorb sa sb in
          let mp := (ma * mb)%positive in
          let ep := ea + eb in
          let ez := Z.min ep ec in
          binary_normalize f32_prec f32_emax
            (cond_Zopp sp (Z.pos (fst (shl_align mp ep ez)))
             + cond_Zopp sc (Z.pos (fst (shl_align mc ec ez))))
            ez false
      end
  end.

(** The two ways a device may evaluate [tmp += a * b]. *)
Definition mac_separate (tmp a b : float32) : float32 :=
  f32_add tmp (f32_mul a b).

Definition mac_fused (tmp a b : float32) : float32 := f32_fma a b tmp.

(** [f32_pow2 e] is the float [2^e], for [-126 <= e <= 127]. *)
Definition f32_pow2 (e : Z) : float32 := S754_finite false 8388608 (e - 23).

Definition f32_one : float32 := f32_pow2 0.

(** ** 32-bit integers *)

Definition INT_MAX : Z := 2147483647.

Definition wrap_int (z : Z) : Z := (z + 2147483648) mod 4294967296 - 2147483648.

Definition int_add (a b : Z) : Z := wrap_int (a + b).
Definition int_mul (a b : Z) : Z := wrap_int (a * b).

(** ** Faults, results and the access log *)

Inductive buffer : Type := BufA | BufB | BufC | BufBwrk | BufAwrk.

Inductive fault : Type :=
| OutOfBounds (b : buffer) (idx : Z)
| Uninitialised (b : buffer) (idx : Z)
| BarrierDivergence
| OutOfFuel.

Inductive res (T : Type) : Type :=
| Ok (t : T)
| Err (e : fault).

Arguments Ok {T} t.
Arguments Err {T} e.

(** What the built-in work-item functions return for one work-item:
    [get_global_id(0)], [get_global_id(1)], [get_local_id(0)] and
    [get_local_size(0)]. *)
Record work_item : Type := WorkItem {
  global_id0 : Z;
  global_id1 : Z;
  local_id0 : Z;
  local_size0 : Z
}.

Inductive access_kind : Type := Rd | Wr.

Record access : Type := Access {
  acc_by : work_item;
  acc_kind : access_kind;
  acc_buf : buffer;
  acc_idx : Z
}.

#[global] Instance buffer_eq_dec : EqDecision buffer.
Proof. solve_decision. Defined.
#[global] Instance access_kind_eq_dec : EqDecision access_kind.
Proof. solve_decision. Defined.
#[global] Instance work_item_eq_dec : EqDecision work_item.
Proof. solve_decision. Defined.
#[global] Instance access_eq_dec : EqDecision access.
Proof. solve_decision. Defined.

(** ** Device memory and the kernel monad *)

(** The memory a kernel changes.  [mlog] holds the accesses made so far,
    newest first. *)
Record kmem : Type := KMem {
  mC : list float32;
  mBwrk : list float32;
  mlog : list access
}.

Definition K (T : Type) : Type := kmem -> res (T * kmem).

Definition ret {T} (t : T) : K T := fun m => Ok (t, m).

Definition bind {T U} (c : K T) (k : T -> K U) : K U :=
  fun m => match c m with
           | Ok (t, m') => k t m'
           | Err e => Err e
           end.

Definition fail {T} (e : fault) : K T := fun _ => Err e.

Notation "'let!' x ':=' c 'in' k" := (bind c (fun x => k))
  (at level 10, x name, c at level 100, k at level 200).

Definition in_bounds {T} (buf : list T) (idx : Z) : bool :=
  (0 <=? idx) && (idx <? Z.of_nat (length buf)).

Definition logged (a : access) (m : kmem) : kmem :=
  {| mC := mC m; mBwrk := mBwrk m; mlog := a :: mlog m |}.

Definition log_access (w : work_item) (o : access_kind) (b : buffer) (idx : Z)
  : K unit :=
  fun m => Ok (tt, logged (Access w o b idx) m).

(** A read of the read-only global buffer [buf], named [b] in the log. *)
Definition read_global (w : work_item) (b : buffer) (buf : list float32)
  (idx : Z) : K float32 :=
  if in_bounds buf idx then
    match buf !! Z.to_nat idx with
    | Some v => let! _ := log_access w Rd b idx in ret v
    | None => fail (OutOfBounds b idx)
    end
  else fail (OutOfBounds b idx).

Definition read_C (w : work_item) (idx : Z) : K float32 :=
  fun m => read_global w BufC (mC m) idx m.

Definition write_C (w : work_item) (idx : Z) (v : float32) : K unit :=
  fun m =>
    if in_bounds (mC m) idx then
      Ok (tt, {| mC := <[Z.to_nat idx := v]> (mC m); mBwrk := mBwrk m;
                 mlog := Access w Wr BufC idx :: mlog m |})
    else Err (OutOfBounds BufC idx).

Definition write_Bwrk (w : work_item) (idx : Z) (v : float32) : K unit :=
  fun m =>
    if in_bounds (mBwrk m) idx then
      Ok (tt, {| mC := mC m; mBwrk := <[Z.to_nat idx := v]> (mBwrk m);
                 mlog := Access w Wr BufBwrk idx :: mlog m |})
    else Err (OutOfBounds BufBwrk idx).

(** The private array [Awrk] is a local variable of one work-item: it is
    passed around as a value.  A cell that was never written holds [None],
    and reading it is a fault. *)
Abbreviation private_array := (list (option float32)).

Definition write_Awrk (w : work_item) (Awrk : private_array) (idx : Z)
  (v : float32) : K private_array :=
  if in_bounds Awrk idx then
    let! _ := log_access w Wr BufAwrk idx in
    ret (<[Z.to_nat idx := Some v]> Awrk)
  else fail (OutOfBounds BufAwrk idx).

Definition read_Awrk (w : work_item) (Awrk : private_array) (idx : Z)
  : K float32 :=
  if in_bounds Awrk idx then
    match Awrk !! Z.to_nat idx with
    | Some (Some v) => let! _ := log_access w Rd BufAwrk idx in ret v
    | Some None => fail (Uninitialised BufAwrk idx)
    | None => fail (OutOfBounds BufAwrk idx)
    end
  else fail (OutOfBounds BufAwrk idx).

(** [for (k = k0; k < N; k += step) s = body(k, s);]
    The loop gives up with [OutOfFuel] after [fuel] iterations. *)
Fixpoint for_loop {S} (fuel : nat) (k N step : Z) (body : Z -> S -> K S)
  (s : S) : K S :=
  if k <? N then
    match fuel with
    | O => fail OutOfFuel
    | Datatypes.S fuel' =>
        let! s' := body k s in
        for_loop fuel' (int_add k step) N step body s'
    end
  else ret s.

(** Run the work-items [ws] one after the other. *)
Fixpoint run_items {W} (ws : list W) (f : W -> K unit) : K unit :=
  match ws with
  | [] => ret tt
  | w :: ws' => let! _ := f w in run_items ws' f
  end.

(** ** The kernel [mmul] (source lines 32-49): one element of C per
       work-item *)

Definition mmul (N : Z) (A B : list float32) (w : work_item) : K unit :=
  let i := global_id0 w in
  let j := global_id1 w in
  if (i <? N) && (j <? N) then
    let! tmp :=
      for_loop (Z.to_nat N) 0 N 1
        (fun k tmp =>
           let! a := read_global w BufA A (int_add (int_mul i N) k) in
           let! b := read_global w BufB B (int_add (int_mul k N) j) in
           ret (f32_add tmp (f32_mul a b)))
        f32_zero in
    write_C w (int_add (int_mul i N) j) tmp
  else ret tt.

(** The launch of line 201-202: [cl::NDRange global(N, N)], no local size
    given.  The work-items are run in row-major order; the kernel asks for
    neither its local id nor its local size, which are set to 0 and 1. *)
Definition naive_launch (N : Z) (A B : list float32) : K unit :=
  run_items (seqZ 0 N)
    (fun i => run_items (seqZ 0 N) (fun j => mmul N A B (WorkItem i j 0 1))).

(** [mmul] on a device that evaluates [tmp += A[i*N+k] * B[k*N+j]] as
    [mac tmp a b]; [mmul] itself is [mmul_with mac_separate]. *)
Definition mmul_with (mac : float32 -> float32 -> float32 -> float32)
  (N : Z) (A B : list float32) (w : work_item) : K unit :=
  let i := global_id0 w in
  let j := global_id1 w in
  if (i <? N) && (j <? N) then
    let! tmp :=
      for_loop (Z.to_nat N) 0 N 1
        (fun k tmp =>
           let! a := read_global w BufA A (int_add (int_mul i N) k) in
           let! b := read_global w BufB B (int_add (int_mul k N) j) in
           ret (mac tmp a b))
        f32_zero in
    write_C w (int_add (int_mul i N) j) tmp
  else ret tt.

Definition naive_launch_with (mac : float32 -> float32 -> float32 -> float32)
  (N : Z) (A B : list float32) : K unit :=
  run_items (seqZ 0 N)
    (fun i =>
       run_items (seqZ 0 N) (fun j => mmul_with mac N A B (WorkItem i j 0 1))).

(** ** The kernel [optimized_rowCPerWorkItemAPrivateBLocal_mmul]
       (source lines 52-82): one row of C per work-item *)

(** [float Awrk[1024];] *)
Definition AWRK_SIZE : Z := 1024.

Definition Awrk_fresh : private_array := replicate (Z.to_nat AWRK_SIZE) None.

(** Lines 66-68: copy row [i] of [A] into the private array. *)
Definition load_row (N : Z) (A : list float32) (w : work_item)
  : K private_array :=
  let i := global_id0 w in
  for_loop (Z.to_nat N) 0 N 1
    (fun k Awrk =>
       let! a := read_global w BufA A (int_add (int_mul i N) k) in
       write_Awrk w Awrk k a)
    Awrk_fresh.

(** Lines 70-71: this work-item's share of staging column [j] of [B] into
    the local scratch, [for (k = iloc; k < N; k += nloc)]. *)
Definition stage_column (N : Z) (B : list float32) (j : Z) (w : work_item)
  : K unit :=
  let iloc := local_id0 w in
  let nloc := local_size0 w in
  for_loop (Z.to_nat N) iloc N nloc
    (fun k _ =>
       let! b := read_global w BufB B (int_add (int_mul k N) j) in
       write_Bwrk w k b)
    tt.

(** Lines 73-78: the dot product of the private row with column [j]. *)
Definition accumulate (N : Z) (B : list float32) (j : Z)
  (Awrk : private_array) (w : work_item) : K float32 :=
  for_loop (Z.to_nat N) 0 N 1
    (fun k tmp =>
       let! a := read_Awrk w Awrk k in
       let! b := read_global w BufB B (int_add (int_mul k N) j) in
       ret (f32_add tmp (f32_mul a b)))
    f32_zero.

(** Line 79: [C[i*N+j] += tmp;] *)
Definition add_to_C (N j : Z) (tmp : float32) (w : work_item) : K unit :=
  let i := global_id0 w in
  let idx := int_add (int_mul i N) j in
  let! c := read_C w idx in
  write_C w idx (f32_add c tmp).

(** Lines 73-79: what a work-item does for column [j] after the barrier. *)
Definition consume_column (N : Z) (B : list float32) (j : Z)
  (Awrk : private_array) (w : work_item) : K unit :=
  let! tmp := accumulate N B j Awrk w in
  add_to_C N j tmp w.

(** The kernel as one work-item runs it.  On its own a work-item passes
    the barrier of line 72 at once; [run_team] below runs a whole
    work-group and makes the group wait there. *)
Definition optimized_rowCPerWorkItemAPrivateBLocal_mmul (N : Z)
  (A B : list float32) (w : work_item) : K unit :=
  let i := global_id0 w in
  if i <? N then
    let! Awrk := load_row N A w in
    for_loop (Z.to_nat N) 0 N 1
      (fun j _ =>
         let! _ := stage_column N B j w in
         consume_column N B j Awrk w)
      tt
  else ret tt.

(** *** Work-groups *)

(** The work-items of group [g] in a one-dimensional range with local size
    [nloc]. *)
Definition member (g nloc loc : Z) : work_item :=
  WorkItem (g * nloc + loc) 0 loc nloc.

Definition team_members (g nloc : Z) : list work_item :=
  member g nloc <$> seqZ 0 nloc.

Fixpoint load_rows (N : Z) (A : list float32) (ws : list work_item)
  : K (list (work_item * private_array)) :=
  match ws with
  | [] => ret []
  | w :: ws' =>
      let! Awrk := load_row N A w in
      let! rest := load_rows N A ws' in
      ret ((w, Awrk) :: rest)
  end.

(** Everything the members of a team do before the barrier of epoch [j]. *)
Definition team_stage (N : Z) (B : list float32) (j : Z)
  (ws : list work_item) : K unit :=
  run_items ws (stage_column N B j).

(** One work-group running the kernel, under one schedule the barrier
    allows: all members load their rows; then for each column [j] all
    members stage it, in the order of their local ids, the group meets at
    the barrier, and all members use the column, in the same order.  The
    barrier sits under the guard [i < N]: a group in which only some
    members pass the guard never gets all of them to the barrier. *)
Definition run_team (N : Z) (A B : list float32) (ws : list work_item)
  : K unit :=
  if forallb (fun w => global_id0 w <? N) ws then
    let! rows := load_rows N A ws in
    for_loop (Z.to_nat N) 0 N 1
      (fun j _ =>
         let! _ := team_stage N B j ws in
         run_items rows (fun r => consume_column N B j (snd r) (fst r)))
      tt
  else if forallb (fun w => negb (global_id0 w <? N)) ws then ret tt
  else fail BarrierDivergence.

(** The launch of line 247: a one-dimensional range of [gsz] work-items in
    groups of [nloc].  Groups run one after the other; the scratch each
    group finds is whatever the memory holds. *)
Definition tiled_launch (gsz nloc N : Z) (A B : list float32) : K unit :=
  run_items (seqZ 0 (gsz / nloc))
    (fun g => run_team N A B (team_members g nloc)).

(** ** What the kernels are meant to compute *)

(** Element [(i, j)] of a row-major matrix of order [N]. *)
Definition cell (N : Z) (M : list float32) (i j : Z) : float32 :=
  default f32_zero (M !! Z.to_nat (i * N + j)).

(** [term 0 + term 1 + ... + term (n-1)], added from left to right starting
    from [0.0f]. *)
Fixpoint sum_upto (n : nat) (term : Z -> float32) : float32 :=
  match n with
  | O => f32_zero
  | Datatypes.S n' => f32_add (sum_upto n' term) (term (Z.of_nat n'))
  end.

(** The sum over [k] in [[0, N)] of [A[i*N+k] * B[k*N+j]]. *)
Definition dot (N : Z) (A B : list float32) (i j : Z) : float32 :=
  sum_upto (Z.to_nat N) (fun k => f32_mul (cell N A i k) (cell N B k j)).

(** The accumulation [tmp = 0.0f; tmp += a 0 * b 0; ...;
    tmp += a (n-1) * b (n-1)] in this order, each step evaluated by
    [mac]. *)
Fixpoint accumulate_with (mac : float32 -> float32 -> float32 -> float32)
  (n : nat) (a b : Z -> float32) : float32 :=
  match n with
  | O => f32_zero
  | Datatypes.S n' =>
      mac (accumulate_with mac n' a b) (a (Z.of_nat n')) (b (Z.of_nat n'))
  end.

Definition dot_with (mac : float32 -> float32 -> float32 -> float32)
  (N : Z) (A B : list float32) (i j : Z) : float32 :=
  accumulate_with mac (Z.to_nat N)
    (fun k => cell N A i k) (fun k => cell N B k j).

(** The sum over [k] in [[0, N)] of [PrivateRow[k] * B[k*N+j]]. *)
Definition dot_private (N : Z) (Awrk : private_array) (B : list float32)
  (j : Z) : float32 :=
  sum_upto (Z.to_nat N)
    (fun k => f32_mul (default f32_zero (mjoin (Awrk !! Z.to_nat k)))
                      (cell N B k j)).

(** Modelled from the spec: the scalar reference multiplier
    [seq_mat_mul_sdot] of [matrix_lib.hpp], which is not part of the
    sources at hand.  For every output position in row-major order,
    [C[i,j]] is the sum over [k] from [0] to [N-1] of [A[i,k] * B[k,j]]. *)
Definition seq_mat_mul_sdot (N : Z) (A B : list float32) : list float32 :=
  (fun idx => dot N A B (idx / N) (idx mod N)) <$> seqZ 0 (N * N).

(** Modelled from the spec: [zero_mat] of [matrix_lib.hpp] overwrites every
    element of a matrix with 0. *)
Definition zero_mat (N : Z) (C : list float32) : list float32 :=
  (fun _ => f32_zero) <$> C.

(** A matrix of order [N], as a buffer. *)
Definition is_matrix (N : Z) (M : list float32) : Prop :=
  length M = Z.to_nat (N * N).

(** ** The host program [main] (source lines 85-269) *)

Definition EXIT_SUCCESS : Z := 0.
Definition EXIT_FAILURE : Z := 1.

Inductive strategy : Type := Sequential | Naive | Tiled.

#[global] Instance strategy_eq_dec : EqDecision strategy.
Proof. solve_decision. Defined.

(** The calls into the OpenCL runtime and the helper libraries that can
    raise [cl::Error] inside the [try] block, in the order of the source. *)
Inductive call_site : Type :=
| ParseArguments
| GetDeviceList
| GetDeviceName
| CreateContext
| CreateQueue
| BuildProgram
| CreateBuffers (s : strategy)
| MakeKernel (s : strategy)
| Enqueue (s : strategy) (rep : Z)
| Finish (s : strategy) (rep : Z)
| CopyBack (s : strategy) (rep : Z).

Record cl_error : Type := ClError { err_what : string; err_code : Z }.

(** [clEnqueueNDRangeKernel] refuses a local size that is zero or does not
    divide the global size. *)
Definition CL_INVALID_WORK_GROUP_SIZE : cl_error :=
  ClError "clEnqueueNDRangeKernel" (-54).

(** What the parts of the program outside [matmul.cpp] supply to one run:
    the macros [ORDER] and [COUNT] of [matmul.hpp], the value
    [parseArguments] leaves in [deviceIndex] when it returns, the number of
    devices found by [getDeviceList], the matrices stored by [initmat], the
    contents of memory nobody initialised (a new [d_c], the local scratch),
    and which call raises [cl::Error] if any. *)
Record platform : Type := Platform {
  ORDER : Z;
  COUNT : Z;
  deviceIndex : Z;
  numDevices : Z;
  deviceName : string;
  initmat_A : list float32;
  initmat_B : list float32;
  initmat_C : list float32;
  fresh_d_c : strategy -> list float32;
  fresh_Bwrk : list float32;
  throws : call_site -> option cl_error
}.

Inductive event : Type :=
| Cout (s : string)
| CerrError (e : cl_error)
| PrintfHeading (s : strategy) (N : Z)
| Invoke (s : strategy)
| Results (s : strategy) (N : Z) (C : list float32).

Record host : Type := Host {
  h_A : list float32;
  h_B : list float32;
  h_C : list float32;
  d_a : list float32;
  d_b : list float32;
  d_c : list float32;
  out : list event
}.

(** How a piece of [main] ends: it falls through, it executes [return], it
    raises [cl::Error], or a kernel has run into undefined behaviour. *)
Inductive signal (T : Type) : Type :=
| Normal (t : T)
| Return (status : Z)
| Throw (e : cl_error)
| Undefined (f : fault).

Arguments Normal {T} t.
Arguments Return {T} status.
Arguments Throw {T} e.
Arguments Undefined {T} f.

Definition H (T : Type) : Type := host -> signal T * host.

Definition hret {T} (t : T) : H T := fun h => (Normal t, h).

Definition hbind {T U} (c : H T) (k : T -> H U) : H U :=
  fun h => match c h with
           | (Normal t, h') => k t h'
           | (Return st, h') => (Return st, h')
           | (Throw e, h') => (Throw e, h')
           | (Undefined f, h') => (Undefined f, h')
           end.

Notation "c1 ;;; c2" := (hbind c1 (fun _ => c2))
  (at level 100, c2 at level 200, right associativity).

Definition emit (e : event) : H unit :=
  fun h => (Normal tt, {| h_A := h_A h; h_B := h_B h; h_C := h_C h;
                          d_a := d_a h; d_b := d_b h; d_c := d_c h;
                          out := e :: out h |}).

Definition return_ (status : Z) : H unit := fun h => (Return status, h).

Definition call (p : platform) (c : call_site) : H unit :=
  fun h => match throws p c with
           | Some e => (Throw e, h)
           | None => (Normal tt, h)
           end.

Definition set_h_C (f : host -> list float32) : H unit :=
  fun h => (Normal tt, {| h_A := h_A h; h_B := h_B h; h_C := f h;
                          d_a := d_a h; d_b := d_b h; d_c := d_c h;
                          out := out h |}).

(** [initmat(N, h_A, h_B, h_C);] *)
Definition initmat (p : platform) : H unit :=
  fun h => (Normal tt, {| h_A := initmat_A p; h_B := initmat_B p;
                          h_C := initmat_C p;
                          d_a := d_a h; d_b := d_b h; d_c := d_c h;
                          out := out h |}).

(** Lines 170-174 and 220-224: [d_a] and [d_b] are copies of the host
    matrices; [d_c] is a new [CL_MEM_WRITE_ONLY] buffer that nothing is
    copied into.  A kernel that reads it finds what the memory holds. *)
Definition create_buffers (p : platform) (s : strategy) : H unit :=
  call p (CreateBuffers s) ;;;
  fun h => (Normal tt, {| h_A := h_A h; h_B := h_B h; h_C := h_C h;
                          d_a := h_A h; d_b := h_B h; d_c := fresh_d_c p s;
                          out := out h |}).

(** Running a kernel on the device buffers: [d_c] is the only one that
    changes. *)
Definition on_device (p : platform)
  (kernel : list float32 -> list float32 -> K unit) : H unit :=
  fun h =>
    match kernel (d_a h) (d_b h)
            {| mC := d_c h; mBwrk := fresh_Bwrk p; mlog := [] |} with
    | Ok (_, m) =>
        (Normal tt, {| h_A := h_A h; h_B := h_B h; h_C := h_C h;
                       d_a := d_a h; d_b := d_b h; d_c := mC m;
                       out := out h |})
    | Err f => (Undefined f, h)
    end.

(** [for (int i = 0; i < COUNT; i++) body(i);] with [count] iterations
    left. *)
Fixpoint host_for (count : nat) (i : Z) (body : Z -> H unit) : H unit :=
  match count with
  | O => hret tt
  | Datatypes.S count' => body i ;;; host_for count' (i + 1) body
  end.

Definition nl : string := String (Ascii.ascii_of_nat 10) EmptyString.

(** Lines 147-158. *)
Definition sequential_rep (p : platform) (i : Z) : H unit :=
  let N := ORDER p in
  set_h_C (fun h => zero_mat N (h_C h)) ;;;
  emit (Invoke Sequential) ;;;
  set_h_C (fun h => seq_mat_mul_sdot N (h_A h) (h_B h)) ;;;
  fun h => emit (Results Sequential N (h_C h)) h.

(** Lines 191-213. *)
Definition naive_rep (p : platform) (i : Z) : H unit :=
  let N := ORDER p in
  set_h_C (fun h => zero_mat N (h_C h)) ;;;
  call p (Enqueue Naive i) ;;;
  emit (Invoke Naive) ;;;
  on_device p (naive_launch N) ;;;
  call p (Finish Naive i) ;;;
  call p (CopyBack Naive i) ;;;
  set_h_C d_c ;;;
  fun h => emit (Results Naive N (h_C h)) h.

(** Lines 241-258.  The global size is [N] and the local size
    [ORDER/16]. *)
Definition tiled_rep (p : platform) (i : Z) : H unit :=
  let N := ORDER p in
  let nloc := ORDER p / 16 in
  set_h_C (fun h => zero_mat N (h_C h)) ;;;
  call p (Enqueue Tiled i) ;;;
  (if (0 <? nloc) && (N mod nloc =? 0) then
     emit (Invoke Tiled) ;;;
     on_device p (tiled_launch N nloc N)
   else fun h => (Throw CL_INVALID_WORK_GROUP_SIZE, h)) ;;;
  call p (Finish Tiled i) ;;;
  call p (CopyBack Tiled i) ;;;
  set_h_C d_c ;;;
  fun h => emit (Results Tiled N (h_C h)) h.

(** The [try] block, lines 108-260. *)
Definition main_try (p : platform) : H unit :=
  let N := ORDER p in
  call p ParseArguments ;;;
  call p GetDeviceList ;;;
  if numDevices p <=? deviceIndex p then
    emit (Cout ("Invalid device index (try '--list')" ++ nl)) ;;;
    return_ EXIT_FAILURE
  else
    call p GetDeviceName ;;;
    emit (Cout (nl ++ "Using OpenCL device: " ++ deviceName p ++ nl)) ;;;
    call p CreateContext ;;;
    call p CreateQueue ;;;
    initmat p ;;;
    emit (PrintfHeading Sequential N) ;;;
    host_for (Z.to_nat (COUNT p)) 0 (sequential_rep p) ;;;
    call p BuildProgram ;;;
    initmat p ;;;
    create_buffers p Naive ;;;
    call p (MakeKernel Naive) ;;;
    emit (PrintfHeading Naive N) ;;;
    host_for (Z.to_nat (COUNT p)) 0 (naive_rep p) ;;;
    initmat p ;;;
    create_buffers p Tiled ;;;
    call p (MakeKernel Tiled) ;;;
    emit (PrintfHeading Tiled N) ;;;
    host_for (Z.to_nat (COUNT p)) 0 (tiled_rep p).

(** Lines 95-102: the host vectors hold [size] zeros, the device buffers
    are empty handles, nothing has been printed. *)
Definition initial_host (p : platform) : host :=
  let N := ORDER p in
  let size := Z.to_nat (N * N) in
  {| h_A := replicate size f32_zero;
     h_B := replicate size f32_zero;
     h_C := replicate size f32_zero;
     d_a := []; d_b := []; d_c := []; out := [] |}.

Inductive termination : Type :=
| Exit (status : Z)
| Crash (f : fault).

(** [main]: the output in the order it was produced, and how the process
    ends.  The handler of lines 261-266 prints and falls through to
    [return EXIT_SUCCESS] of line 268. *)
Definition main (p : platform) : list event * termination :=
  match main_try p (initial_host p) with
  | (Normal _, h) => (rev (out h), Exit EXIT_SUCCESS)
  | (Return status, h) => (rev (out h), Exit status)
  | (Throw e, h) =>
      (rev (CerrError e :: Cout ("Exception" ++ nl) :: out h),
       Exit EXIT_SUCCESS)
  | (Undefined f, h) => (rev (out h), Crash f)
  end.

(** ** Invariants *)

(** [swept N C0 f D C]: starting from [C0], the cells in [D] have been
    replaced by [f i j (old value)] and the others are as they were. *)
Definition swept (N : Z) (C0 : list float32) (f : Z -> Z -> float32 -> float32)
  (D : Z -> Z -> Prop) (C : list float32) : Prop :=
  is_matrix N C /\
  forall i j, 0 <= i < N -> 0 <= j < N ->
    (D i j -> C !! Z.to_nat (i * N + j) = Some (f i j (cell N C0 i j))) /\
    (~ D i j -> C !! Z.to_nat (i * N + j) = Some (cell N C0 i j)).

(** What line 79 makes of cell [(i, j)] of C when it held [c]. *)
Definition accumulated (N : Z) (A B : list float32) (i j : Z) (c : float32)
  : float32 :=
  f32_add c (dot N A B i j).

(** The rows of C that belong to group [g]. *)
Definition team_row (g nloc i : Z) : Prop := g * nloc <= i < (g + 1) * nloc.

(** [Awrk] holds row [i] of [A] in its first [N] cells. *)
Definition row_loaded (N : Z) (A : list float32) (i : Z)
  (Awrk : private_array) : Prop :=
  forall k, 0 <= k < N -> Awrk !! Z.to_nat k = Some (Some (cell N A i k)).

(** The first [N] cells of [Awrk] have been written. *)
Definition row_initialised (N : Z) (Awrk : private_array) : Prop :=
  forall k, 0 <= k < N -> exists v, Awrk !! Z.to_nat k = Some (Some v).

(** The writes to cell [idx] of buffer [b] found in a log. *)
Definition writes_to (b : buffer) (idx : Z) (L : list access) : list access :=
  filter (fun a => acc_kind a = Wr /\ acc_buf a = b /\ acc_idx a = idx) L.

(** The state of the loop of lines 66-68 when it is about to test
    [k < N]: the first [k] cells of [Awrk] hold the start of row [i], and
    the log has grown by the accesses of [k] iterations, whose writes to
    [Awrk] are the indices below [k]. *)
Definition load_row_inv (N : Z) (A : list float32) (w : work_item)
  (m : kmem) (k : Z) (Awrk : private_array) (m' : kmem) : Prop :=
  length Awrk = Z.to_nat AWRK_SIZE /\
  (forall k', 0 <= k' < k ->
     Awrk !! Z.to_nat k' = Some (Some (cell N A (global_id0 w) k'))) /\
  mC m' = mC m /\ mBwrk m' = mBwrk m /\
  exists L, mlog m' = L ++ mlog m /\
    (forall a, a ∈ L -> acc_buf a = BufAwrk ->
       acc_kind a = Wr /\ 0 <= acc_idx a < k) /\
    (forall k', 0 <= k' < k -> Access w Wr BufAwrk k' ∈ L).

(** The state of the loop of lines 70-71, run by the work-item with local
    id [loc] in a group of [nloc], when it is about to test [k < N]. *)
Definition stage_inv (N : Z) (B : list float32) (j : Z) (w : work_item)
  (m : kmem) (k : Z) (m' : kmem) : Prop :=
  k mod local_size0 w = local_id0 w /\
  mC m' = mC m /\
  length (mBwrk m') = Z.to_nat N /\
  (forall k', 0 <= k' < N ->
     mBwrk m' !! Z.to_nat k'
     = if decide (k' < k /\ k' mod local_size0 w = local_id0 w)
       then Some (cell N B k' j) else mBwrk m !! Z.to_nat k') /\
  exists L, mlog m' = L ++ mlog m /\
    forall k', 0 <= k' < N ->
      writes_to BufBwrk k' L
      = if decide (k' < k /\ k' mod local_size0 w = local_id0 w)
        then [Access w Wr BufBwrk k'] else [].

(** After the first [n] members of the team have staged column [j]. *)
Definition team_stage_inv (N : Z) (B : list float32) (j g nloc : Z)
  (m : kmem) (n : nat) (m' : kmem) : Prop :=
  mC m' = mC m /\
  length (mBwrk m') = Z.to_nat N /\
  (forall k, 0 <= k < N ->
     mBwrk m' !! Z.to_nat k
     = if decide (k mod nloc < Z.of_nat n)
       then Some (cell N B k j) else mBwrk m !! Z.to_nat k) /\
  exists L, mlog m' = L ++ mlog m /\
    forall k, 0 <= k < N ->
      writes_to BufBwrk k L
      = if decide (k mod nloc < Z.of_nat n)
        then [Access (member g nloc (k mod nloc)) Wr BufBwrk k] else [].

(** The state of the loop of lines 74-78 when it is about to test
    [k < N]. *)
Definition accumulate_inv (N : Z) (B : list float32) (j : Z)
  (Awrk : private_array) (m : kmem) (k : Z) (tmp : float32) (m' : kmem)
  : Prop :=
  tmp = sum_upto (Z.to_nat k)
          (fun k => f32_mul (default f32_zero (mjoin (Awrk !! Z.to_nat k)))
                            (cell N B k j)) /\
  mC m' = mC m /\ mBwrk m' = mBwrk m /\
  exists L, mlog m' = L ++ mlog m /\
    forall a, a ∈ L ->
      acc_kind a = Rd /\ (acc_buf a = BufAwrk \/ acc_buf a = BufB).

(** ** Concrete runs *)

(** The contents of C after a launch. *)
Definition result_C (kernel : K unit) (m : kmem) : res (list float32) :=
  match kernel m with
  | Ok (_, m') => Ok (mC m')
  | Err e => Err e
  end.

(** The matrices handed to [results] by the repetitions of strategy [s]. *)
Definition readbacks (s : strategy) (trace : list event)
  : list (list float32) :=
  omap (fun e => match e with
                 | Results s' _ C => if decide (s' = s) then Some C else None
                 | _ => None
                 end) trace.

Definition ones (n : Z) : list float32 := replicate (Z.to_nat n) f32_one.
Definition zeros (n : Z) : list float32 := replicate (Z.to_nat n) f32_zero.

(** A run on the first of one device, with constant matrices A and B, all
    uninitialised memory holding zeros, and [throws] deciding which call
    fails. *)
Definition constant_run (order count : Z)
  (throws : call_site -> option cl_error) : platform :=
  {| ORDER := order; COUNT := count;
     deviceIndex := 0; numDevices := 1; deviceName := "device";
     initmat_A := ones (order * order);
     initmat_B := ones (order * order);
     initmat_C := zeros (order * order);
     fresh_d_c := fun _ => zeros (order * order);
     fresh_Bwrk := zeros order;
     throws := throws |}.

(** Two matrices of order 2 on which contraction shows: row 0 of the
    first is [(-1, 1 + 2^-12)], column 0 of the second [(1, 1 + 2^-12)]. *)
Definition contraction_A : list float32 :=
  [S754_finite true 8388608 (-23); S754_finite false 8390656 (-23);
   f32_zero; f32_zero].

Definition contraction_B : list float32 :=
  [f32_one; f32_zero; S754_finite false 8390656 (-23); f32_zero].

Definition no_error : call_site -> option cl_error := fun _ => None.

Definition build_error : cl_error := ClError "clBuildProgram" (-11).

Definition build_fails : call_site -> option cl_error :=
  fun c => match c with BuildProgram => Some build_error | _ => None end.

(** ** Error-free runs *)

(** A piece of [main] that never executes [return]. *)
Definition no_return {T} (c : H T) : Prop :=
  forall h st h', c h <> (Return st, h').

(** [c + d + ... + d], with [n] additions from left to right. *)
Definition add_times (n : nat) (d c : float32) : float32 :=
  Nat.iter n (fun x => f32_add x d) c.

(** The matrix the tiled kernel leaves after [n] launches on a buffer that
    held [V]. *)
Definition tiled_after (N : Z) (A B V : list float32) (n : nat)
  : list float32 :=
  (fun idx => add_times n (dot N A B (idx / N) (idx mod N))
                (cell N V (idx / N) (idx mod N))) <$> seqZ 0 (N * N).

(** What [n] repetitions of strategy [s] print, in order, when repetition
    [k] hands the matrix [C k] to [results]. *)
Definition rep_trace (s : strategy) (N : Z) (C : nat -> list float32)
  (n : nat) : list event :=
  flat_map (fun k => [Invoke s; Results s N (C k)]) (seq 0 n).

(** * Properties *)

(** ** Integer arithmetic without overflow *)

Lemma wrap_int_small (z : Z) :
  -2147483648 <= z <= INT_MAX -> wrap_int z = z.
Proof.
  unfold wrap_int, INT_MAX. intros Hz.
  rewrite Z.mod_small by lia. lia.
Qed.

Lemma index_bounds (N i j : Z) :
  0 <= i < N -> 0 <= j < N -> 0 <= i * N + j < N * N.
Proof. intros Hi Hj. nia. Qed.

Lemma int_index (N i j : Z) :
  N * N <= INT_MAX -> 0 <= i < N -> 0 <= j < N ->
  int_add (int_mul i N) j = i * N + j.
Proof.
  intros HN Hi Hj. pose proof (index_bounds N i j Hi Hj) as Hb.
  unfold int_add, int_mul.
  rewrite (wrap_int_small (i * N)) by (unfold INT_MAX in *; nia).
  apply wrap_int_small. unfold INT_MAX in *. lia.
Qed.

Lemma index_inj (N i j i' j' : Z) :
  0 <= j < N -> 0 <= j' < N -> i * N + j = i' * N + j' -> i = i' /\ j = j'.
Proof. intros Hj Hj' Heq. assert (i = i') by nia. split; [done | nia]. Qed.

(** ** Running loops *)

Lemma bind_Ok {T U} (c : K T) (k : T -> K U) (m m' : kmem) (t : T) :
  c m = Ok (t, m') -> bind c k m = k t m'.
Proof. intros Hc. unfold bind. by rewrite Hc. Qed.

Lemma bind_Err {T U} (c : K T) (k : T -> K U) (m : kmem) (e : fault) :
  c m = Err e -> bind c k m = Err e.
Proof. intros Hc. unfold bind. by rewrite Hc. Qed.

(** The invariant rule for [for (k = k0; k < N; k += step)]: the loop ends
    normally, in a state that satisfies the invariant at the first index
    not below [N]. *)
Lemma for_loop_rule {S} (I : Z -> S -> kmem -> Prop) (N step : Z)
  (body : Z -> S -> K S) :
  0 < step -> N + step <= INT_MAX + 1 ->
  (forall k s m, 0 <= k < N -> I k s m ->
     exists s' m', body k s m = Ok (s', m') /\ I (k + step) s' m') ->
  forall (fuel : nat) k s m,
    0 <= k -> N - k <= Z.of_nat fuel -> I k s m ->
    exists k' s' m',
      for_loop fuel k N step body s m = Ok (s', m') /\
      I k' s' m' /\ N <= k' /\ k <= k'.
Proof.
  intros Hstep Hmax Hbody fuel.
  induction fuel as [|fuel IH]; intros k s m Hk Hfuel HI; simpl.
  - destruct (Z.ltb_spec k N); [lia |].
    exists k, s, m. by repeat split; try lia.
  - destruct (Z.ltb_spec k N) as [Hlt | Hge].
    + destruct (Hbody k s m ltac:(lia) HI) as (s' & m' & Hb & HI').
      rewrite (bind_Ok _ _ _ _ _ Hb).
      assert (Hadd : int_add k step = k + step).
      { apply wrap_int_small. unfold INT_MAX in *. lia. }
      rewrite Hadd.
      destruct (IH (k + step) s' m') as (k' & s'' & m'' & Hrun & HI'' & ? & ?);
        [lia | lia | done |].
      exists k', s'', m''. repeat split; [done | done | lia | lia].
    + exists k, s, m. by repeat split; try lia.
Qed.

(** The same for a list of work-items run in order; the invariant counts
    how many have run. *)
Lemma run_items_rule {W} (I : nat -> kmem -> Prop) (f : W -> K unit)
  (ws : list W) :
  (forall n w m, ws !! n = Some w -> I n m ->
     exists m', f w m = Ok (tt, m') /\ I (Datatypes.S n) m') ->
  forall m, I O m ->
    exists m', run_items ws f m = Ok (tt, m') /\ I (length ws) m'.
Proof.
  intros Hstep.
  assert (Hgen : forall (todo pre : list W) m,
            ws = pre ++ todo -> I (length pre) m ->
            exists m', run_items todo f m = Ok (tt, m') /\ I (length ws) m').
  { induction todo as [|w todo IH]; intros pre m Hws HI; simpl.
    - exists m. split; [done |]. subst ws. by rewrite app_nil_r.
    - destruct (Hstep (length pre) w m) as (m' & Hf & HI'); [| done |].
      { subst ws. by rewrite list_lookup_middle. }
      rewrite (bind_Ok _ _ _ _ _ Hf).
      apply (IH (pre ++ [w])).
      + subst ws. by rewrite <- app_assoc.
      + rewrite length_app. simpl. by rewrite Nat.add_1_r. }
  intros m HI. by apply (Hgen ws []).
Qed.

(** ** Memory accesses *)

Lemma in_bounds_true {T} (buf : list T) (idx : Z) :
  0 <= idx < Z.of_nat (length buf) -> in_bounds buf idx = true.
Proof.
  intros Hidx. unfold in_bounds.
  apply andb_true_intro. split; [apply Z.leb_le | apply Z.ltb_lt]; lia.
Qed.

Lemma read_global_Ok (w : work_item) (b : buffer) (buf : list float32)
  (idx : Z) (v : float32) (m : kmem) :
  0 <= idx -> buf !! Z.to_nat idx = Some v ->
  read_global w b buf idx m = Ok (v, logged (Access w Rd b idx) m).
Proof.
  intros Hidx Hv. unfold read_global.
  rewrite in_bounds_true.
  - by rewrite Hv.
  - apply lookup_lt_Some in Hv. lia.
Qed.

Lemma matrix_lookup (N : Z) (M : list float32) (i j : Z) :
  is_matrix N M -> 0 <= i < N -> 0 <= j < N ->
  M !! Z.to_nat (i * N + j) = Some (cell N M i j).
Proof.
  intros HM Hi Hj. unfold cell.
  pose proof (index_bounds N i j Hi Hj) as Hb.
  destruct (lookup_lt_is_Some_2 M (Z.to_nat (i * N + j))) as [v Hv].
  - rewrite HM. lia.
  - by rewrite Hv.
Qed.

Lemma read_matrix_Ok (w : work_item) (b : buffer) (N : Z)
  (M : list float32) (i j : Z) (m : kmem) :
  N * N <= INT_MAX -> is_matrix N M -> 0 <= i < N -> 0 <= j < N ->
  read_global w b M (int_add (int_mul i N) j) m
  = Ok (cell N M i j, logged (Access w Rd b (i * N + j)) m).
Proof.
  intros HN HM Hi Hj. rewrite int_index by done.
  apply read_global_Ok.
  - pose proof (index_bounds N i j Hi Hj). lia.
  - by apply matrix_lookup.
Qed.

Lemma write_C_Ok (w : work_item) (N i j : Z) (v : float32) (m : kmem) :
  N * N <= INT_MAX -> is_matrix N (mC m) -> 0 <= i < N -> 0 <= j < N ->
  write_C w (int_add (int_mul i N) j) v m
  = Ok (tt, {| mC := <[Z.to_nat (i * N + j) := v]> (mC m);
               mBwrk := mBwrk m;
               mlog := Access w Wr BufC (i * N + j) :: mlog m |}).
Proof.
  intros HN HM Hi Hj. rewrite int_index by done.
  unfold write_C. rewrite in_bounds_true; [done |].
  pose proof (index_bounds N i j Hi Hj). rewrite HM. lia.
Qed.

(** ** Sweeping over the cells of C *)

Lemma swept_start (N : Z) (C0 : list float32) f (D : Z -> Z -> Prop) :
  is_matrix N C0 ->
  (forall i j, 0 <= i < N -> 0 <= j < N -> ~ D i j) ->
  swept N C0 f D C0.
Proof.
  intros HM HD. split; [done |]. intros i j Hi Hj. split.
  - intros HDij. by destruct (HD i j).
  - intros _. by apply matrix_lookup.
Qed.

Lemma swept_weaken (N : Z) (C0 C : list float32) f (D D' : Z -> Z -> Prop) :
  swept N C0 f D C ->
  (forall i j, 0 <= i < N -> 0 <= j < N -> D' i j <-> D i j) ->
  swept N C0 f D' C.
Proof.
  intros [HM Hc] Hiff. split; [done |]. intros i j Hi Hj.
  destruct (Hc i j Hi Hj) as [Hin Hout].
  split; intros HD; [apply Hin | apply Hout]; by rewrite <- Hiff.
Qed.

Lemma swept_step (N : Z) (C0 C : list float32) f (D D' : Z -> Z -> Prop)
  (i j : Z) :
  swept N C0 f D C -> 0 <= i < N -> 0 <= j < N -> ~ D i j ->
  (forall i' j', 0 <= i' < N -> 0 <= j' < N ->
     D' i' j' <-> D i' j' \/ (i' = i /\ j' = j)) ->
  swept N C0 f D' (<[Z.to_nat (i * N + j) := f i j (cell N C0 i j)]> C).
Proof.
  intros [HM Hc] Hi Hj HnD Hiff. split.
  - unfold is_matrix. by rewrite length_insert.
  - intros i' j' Hi' Hj'.
    pose proof (index_bounds N i j Hi Hj).
    pose proof (index_bounds N i' j' Hi' Hj').
    destruct (Hc i' j' Hi' Hj') as [Hin Hout].
    destruct (decide (i' = i /\ j' = j)) as [[-> ->] | Hne].
    + split; intros HD.
      * apply list_lookup_insert_eq. rewrite HM. lia.
      * destruct HD. apply Hiff; auto.
    + rewrite list_lookup_insert_ne.
      * split; intros HD.
        -- apply Hin. apply Hiff in HD; [| done | done]. by destruct HD.
        -- apply Hout. intros HD'. apply HD. apply Hiff; auto.
      * intros Hidx. apply Hne. apply (index_inj N); [done | done |]. lia.
Qed.

Lemma swept_lookup (N : Z) (C0 C : list float32) f (D : Z -> Z -> Prop)
  (i j : Z) :
  swept N C0 f D C -> 0 <= i < N -> 0 <= j < N -> D i j ->
  C !! Z.to_nat (i * N + j) = Some (f i j (cell N C0 i j)).
Proof. intros [_ Hc] Hi Hj HD. by apply Hc. Qed.

(** ** The kernel [mmul] *)

Section naive.
Variables (N : Z) (A B : list float32).
Hypothesis HN : N * N <= INT_MAX.
Hypothesis HA : is_matrix N A.
Hypothesis HB : is_matrix N B.

(** The loop of lines 43-46 leaves the memory alone (but for the log) and
    yields the left-to-right sum. *)
Lemma mmul_loop (w : work_item) (i j : Z) (m : kmem) :
  0 <= i < N -> 0 <= j < N ->
  exists m',
    for_loop (Z.to_nat N) 0 N 1
      (fun k tmp =>
         let! a := read_global w BufA A (int_add (int_mul i N) k) in
         let! b := read_global w BufB B (int_add (int_mul k N) j) in
         ret (f32_add tmp (f32_mul a b)))
      f32_zero m
    = Ok (dot N A B i j, m') /\ mC m' = mC m /\ mBwrk m' = mBwrk m.
Proof.
  intros Hi Hj.
  pose (I := fun (k : Z) (tmp : float32) (m' : kmem) =>
    k <= N /\
    tmp = sum_upto (Z.to_nat k)
            (fun k => f32_mul (cell N A i k) (cell N B k j)) /\
    mC m' = mC m /\ mBwrk m' = mBwrk m).
  assert (Hbody : forall k tmp m1, 0 <= k < N -> I k tmp m1 ->
    exists tmp' m2,
      (let! a := read_global w BufA A (int_add (int_mul i N) k) in
       let! b := read_global w BufB B (int_add (int_mul k N) j) in
       ret (f32_add tmp (f32_mul a b))) m1 = Ok (tmp', m2) /\
      I (k + 1) tmp' m2).
  { intros k tmp m1 Hk (_ & Htmp & HC & HBw).
    do 2 eexists. split.
    - erewrite bind_Ok by (by apply read_matrix_Ok).
      erewrite bind_Ok by (by apply read_matrix_Ok).
      reflexivity.
    - unfold I. split_and!; [lia | | done | done].
      replace (Z.to_nat (k + 1)) with (Datatypes.S (Z.to_nat k)) by lia.
      simpl. rewrite Z2Nat.id by lia. by rewrite Htmp. }
  assert (HI0 : I 0 f32_zero m).
  { unfold I. split_and!; [lia | done | done | done]. }
  assert (Hmax : N + 1 <= INT_MAX + 1) by (unfold INT_MAX in *; nia).
  destruct (for_loop_rule I N 1 _ ltac:(lia) Hmax Hbody (Z.to_nat N) 0
              f32_zero m ltac:(lia) ltac:(lia) HI0)
    as (k' & tmp & m' & Hrun & (Hle & Htmp & HC & HBw) & Hk' & _).
  exists m'. split; [| done].
  replace k' with N in Htmp by lia. subst tmp. exact Hrun.
Qed.

(** A work-item inside the grid stores the dot product in its cell. *)
Lemma mmul_in_grid (w : work_item) (m : kmem) :
  is_matrix N (mC m) ->
  0 <= global_id0 w < N -> 0 <= global_id1 w < N ->
  exists m',
    mmul N A B w m = Ok (tt, m') /\
    mC m' = <[Z.to_nat (global_id0 w * N + global_id1 w)
              := dot N A B (global_id0 w) (global_id1 w)]> (mC m) /\
    mBwrk m' = mBwrk m.
Proof.
  intros HC Hi Hj. unfold mmul.
  replace (global_id0 w <? N) with true by (symmetry; apply Z.ltb_lt; lia).
  replace (global_id1 w <? N) with true by (symmetry; apply Z.ltb_lt; lia).
  simpl.
  destruct (mmul_loop w _ _ m Hi Hj) as (m1 & Hloop & HC1 & HB1).
  rewrite (bind_Ok _ _ _ _ _ Hloop).
  rewrite write_C_Ok; [| done | by rewrite HC1 | done | done].
  eexists. split; [done |]. simpl. by rewrite HC1, HB1.
Qed.

(** The whole grid: every cell of C ends up holding its dot product,
    whatever C held before. *)
Lemma naive_launch_Ok (m : kmem) :
  is_matrix N (mC m) ->
  exists m',
    naive_launch N A B m = Ok (tt, m') /\
    swept N (mC m) (fun i j _ => dot N A B i j) (fun _ _ => True) (mC m') /\
    mBwrk m' = mBwrk m.
Proof.
  intros HC. set (f := fun (i j : Z) (_ : float32) => dot N A B i j).
  pose (I := fun (n : nat) (m' : kmem) =>
    swept N (mC m) f (fun i _ => i < Z.of_nat n) (mC m') /\
    mBwrk m' = mBwrk m).
  destruct (run_items_rule I
    (fun i => run_items (seqZ 0 N) (fun j => mmul N A B (WorkItem i j 0 1)))
    (seqZ 0 N)) with (m := m) as (m' & Hrun & Hsw & HBw).
  - intros n i m1 Hn [Hsw HBw]. apply lookup_seqZ in Hn as [-> Hn].
    rewrite Z.add_0_l.
    pose (J := fun (c : nat) (m' : kmem) =>
      swept N (mC m) f
        (fun i j => i < Z.of_nat n \/ (i = Z.of_nat n /\ j < Z.of_nat c))
        (mC m') /\
      mBwrk m' = mBwrk m).
    destruct (run_items_rule J
      (fun j => mmul N A B (WorkItem (Z.of_nat n) j 0 1)) (seqZ 0 N))
      with (m := m1) as (m2 & Hrun & Hsw2 & HBw2).
    + intros c j m2 Hc [Hsw2 HBw2]. apply lookup_seqZ in Hc as [-> Hc].
      rewrite Z.add_0_l.
      destruct (mmul_in_grid (WorkItem (Z.of_nat n) (Z.of_nat c) 0 1) m2)
        as (m3 & Hrun & HC3 & HBw3); simpl; [apply Hsw2 | lia | lia |].
      simpl in HC3. exists m3. split; [done |]. split; [| congruence].
      rewrite HC3.
      apply (swept_step N (mC m) (mC m2) f _ _ (Z.of_nat n) (Z.of_nat c) Hsw2);
        [lia | lia | lia |].
      intros i' j' _ _. lia.
    + split; [| done]. eapply swept_weaken; [exact Hsw |].
      intros i' j' Hi' Hj'. simpl. lia.
    + exists m2. split; [done |]. split; [| done].
      eapply swept_weaken; [exact Hsw2 |].
      intros i' j' _ Hj'. rewrite length_seqZ. lia.
  - split; [| done]. apply swept_start; [done |]. intros i j Hi _. simpl. lia.
  - exists m'. split; [done |]. split; [| done].
    eapply swept_weaken; [exact Hsw |].
    intros i j Hi _. rewrite length_seqZ. split; [lia | done].
Qed.
End naive.

(** The same on a device that evaluates [tmp += a * b] by [mac]. *)
Section naive_with.
Variable mac : float32 -> float32 -> float32 -> float32.
Variables (N : Z) (A B : list float32).
Hypothesis HN : N * N <= INT_MAX.
Hypothesis HA : is_matrix N A.
Hypothesis HB : is_matrix N B.

(** The loop of lines 43-46 leaves the memory alone (but for the log) and
    yields the accumulation in the order of [k]. *)
Lemma mmul_loop_with (w : work_item) (i j : Z) (m : kmem) :
  0 <= i < N -> 0 <= j < N ->
  exists m',
    for_loop (Z.to_nat N) 0 N 1
      (fun k tmp =>
         let! a := read_global w BufA A (int_add (int_mul i N) k) in
         let! b := read_global w BufB B (int_add (int_mul k N) j) in
         ret (mac tmp a b))
      f32_zero m
    = Ok (dot_with mac N A B i j, m') /\ mC m' = mC m /\ mBwrk m' = mBwrk m.
Proof.
  intros Hi Hj.
  pose (I := fun (k : Z) (tmp : float32) (m' : kmem) =>
    k <= N /\
    tmp = accumulate_with mac (Z.to_nat k)
            (fun k => cell N A i k) (fun k => cell N B k j) /\
    mC m' = mC m /\ mBwrk m' = mBwrk m).
  assert (Hbody : forall k tmp m1, 0 <= k < N -> I k tmp m1 ->
    exists tmp' m2,
      (let! a := read_global w BufA A (int_add (int_mul i N) k) in
       let! b := read_global w BufB B (int_add (int_mul k N) j) in
       ret (mac tmp a b)) m1 = Ok (tmp', m2) /\
      I (k + 1) tmp' m2).
  { intros k tmp m1 Hk (_ & Htmp & HC & HBw).
    do 2 eexists. split.
    - erewrite bind_Ok by (by apply read_matrix_Ok).
      erewrite bind_Ok by (by apply read_matrix_Ok).
      reflexivity.
    - unfold I. split_and!; [lia | | done | done].
      replace (Z.to_nat (k + 1)) with (Datatypes.S (Z.to_nat k)) by lia.
      simpl. rewrite Z2Nat.id by lia. by rewrite Htmp. }
  assert (HI0 : I 0 f32_zero m).
  { unfold I. split_and!; [lia | done | done | done]. }
  assert (Hmax : N + 1 <= INT_MAX + 1) by (unfold INT_MAX in *; nia).
  destruct (for_loop_rule I N 1 _ ltac:(lia) Hmax Hbody (Z.to_nat N) 0
              f32_zero m ltac:(lia) ltac:(lia) HI0)
    as (k' & tmp & m' & Hrun & (Hle & Htmp & HC & HBw) & Hk' & _).
  exists m'. split; [| done].
  replace k' with N in Htmp by lia. subst tmp. exact Hrun.
Qed.

(** A work-item inside the grid stores the dot product in its cell. *)
Lemma mmul_in_grid_with (w : work_item) (m : kmem) :
  is_matrix N (mC m) ->
  0 <= global_id0 w < N -> 0 <= global_id1 w < N ->
  exists m',
    mmul_with mac N A B w m = Ok (tt, m') /\
    mC m' = <[Z.to_nat (global_id0 w * N + global_id1 w)
              := dot_with mac N A B (global_id0 w) (global_id1 w)]> (mC m) /\
    mBwrk m' = mBwrk m.
Proof.
  intros HC Hi Hj. unfold mmul_with.
  replace (global_id0 w <? N) with true by (symmetry; apply Z.ltb_lt; lia).
  replace (global_id1 w <? N) with true by (symmetry; apply Z.ltb_lt; lia).
  simpl.
  destruct (mmul_loop_with w _ _ m Hi Hj) as (m1 & Hloop & HC1 & HB1).
  rewrite (bind_Ok _ _ _ _ _ Hloop).
  rewrite write_C_Ok; [| done | by rewrite HC1 | done | done].
  eexists. split; [done |]. simpl. by rewrite HC1, HB1.
Qed.

(** The whole grid: every cell of C ends up holding its dot product,
    whatever C held before. *)
Lemma naive_launch_Ok_with (m : kmem) :
  is_matrix N (mC m) ->
  exists m',
    naive_launch_with mac N A B m = Ok (tt, m') /\
    swept N (mC m) (fun i j _ => dot_with mac N A B i j) (fun _ _ => True)
      (mC m') /\
    mBwrk m' = mBwrk m.
Proof.
  intros HC. set (f := fun (i j : Z) (_ : float32) => dot_with mac N A B i j).
  pose (I := fun (n : nat) (m' : kmem) =>
    swept N (mC m) f (fun i _ => i < Z.of_nat n) (mC m') /\
    mBwrk m' = mBwrk m).
  destruct (run_items_rule I
    (fun i =>
       run_items (seqZ 0 N)
         (fun j => mmul_with mac N A B (WorkItem i j 0 1)))
    (seqZ 0 N)) with (m := m) as (m' & Hrun & Hsw & HBw).
  - intros n i m1 Hn [Hsw HBw]. apply lookup_seqZ in Hn as [-> Hn].
    rewrite Z.add_0_l.
    pose (J := fun (c : nat) (m' : kmem) =>
      swept N (mC m) f
        (fun i j => i < Z.of_nat n \/ (i = Z.of_nat n /\ j < Z.of_nat c))
        (mC m') /\
      mBwrk m' = mBwrk m).
    destruct (run_items_rule J
      (fun j => mmul_with mac N A B (WorkItem (Z.of_nat n) j 0 1)) (seqZ 0 N))
      with (m := m1) as (m2 & Hrun & Hsw2 & HBw2).
    + intros c j m2 Hc [Hsw2 HBw2]. apply lookup_seqZ in Hc as [-> Hc].
      rewrite Z.add_0_l.
      destruct (mmul_in_grid_with
                  (WorkItem (Z.of_nat n) (Z.of_nat c) 0 1) m2)
        as (m3 & Hrun & HC3 & HBw3); simpl; [apply Hsw2 | lia | lia |].
      simpl in HC3. exists m3. split; [done |]. split; [| congruence].
      rewrite HC3.
      apply (swept_step N (mC m) (mC m2) f _ _ (Z.of_nat n) (Z.of_nat c) Hsw2);
        [lia | lia | lia |].
      intros i' j' _ _. lia.
    + split; [| done]. eapply swept_weaken; [exact Hsw |].
      intros i' j' Hi' Hj'. simpl. lia.
    + exists m2. split; [done |]. split; [| done].
      eapply swept_weaken; [exact Hsw2 |].
      intros i' j' _ Hj'. rewrite length_seqZ. lia.
  - split; [| done]. apply swept_start; [done |]. intros i j Hi _. simpl. lia.
  - exists m'. split; [done |]. split; [| done].
    eapply swept_weaken; [exact Hsw |].
    intros i j Hi _. rewrite length_seqZ. split; [lia | done].
Qed.
End naive_with.

(** ** The private row *)

Lemma Awrk_fresh_length : length Awrk_fresh = Z.to_nat AWRK_SIZE.
Proof. apply length_replicate. Qed.

Lemma write_Awrk_Ok (w : work_item) (Awrk : private_array) (k : Z)
  (v : float32) (m : kmem) :
  0 <= k < Z.of_nat (length Awrk) ->
  write_Awrk w Awrk k v m
  = Ok (<[Z.to_nat k := Some v]> Awrk, logged (Access w Wr BufAwrk k) m).
Proof. intros Hk. unfold write_Awrk. by rewrite in_bounds_true. Qed.

Lemma write_Awrk_Err (w : work_item) (Awrk : private_array) (k : Z)
  (v : float32) (m : kmem) :
  Z.of_nat (length Awrk) <= k ->
  write_Awrk w Awrk k v m = Err (OutOfBounds BufAwrk k).
Proof.
  intros Hk. unfold write_Awrk, in_bounds.
  replace (k <? Z.of_nat (length Awrk)) with false
    by (symmetry; apply Z.ltb_ge; lia).
  by rewrite andb_false_r.
Qed.

Section private_row.
Variables (N : Z) (A : list float32) (w : work_item).
Hypothesis HN : N * N <= INT_MAX.
Hypothesis HA : is_matrix N A.
Hypothesis Hi : 0 <= global_id0 w < N.

Lemma load_row_inv_start (m : kmem) :
  load_row_inv N A w m 0 Awrk_fresh m.
Proof.
  unfold load_row_inv. split_and!; [apply Awrk_fresh_length | | done | done |].
  - intros k' Hk'. lia.
  - exists []. split_and!; [done | |].
    + intros a Ha. by apply not_elem_of_nil in Ha.
    + intros k' Hk'. lia.
Qed.

(** One iteration that stays inside the array. *)
Lemma load_row_body (m : kmem) (k : Z) (Awrk : private_array) (m1 : kmem) :
  0 <= k < N -> k < AWRK_SIZE ->
  load_row_inv N A w m k Awrk m1 ->
  exists Awrk' m2,
    (let! a := read_global w BufA A (int_add (int_mul (global_id0 w) N) k) in
     write_Awrk w Awrk k a) m1 = Ok (Awrk', m2) /\
    load_row_inv N A w m (k + 1) Awrk' m2.
Proof.
  intros Hk Hsize (Hlen & Hrow & HC & HBw & L & HL & Hwr & Hall).
  do 2 eexists. split.
  - erewrite bind_Ok by (by apply read_matrix_Ok).
    apply write_Awrk_Ok. rewrite Hlen. lia.
  - unfold load_row_inv. split_and!.
    + by rewrite length_insert.
    + intros k' Hk'. destruct (decide (k' = k)) as [-> | Hne].
      * apply list_lookup_insert_eq. rewrite Hlen. lia.
      * rewrite list_lookup_insert_ne by lia. apply Hrow. lia.
    + done.
    + done.
    + exists (Access w Wr BufAwrk k
              :: Access w Rd BufA (global_id0 w * N + k) :: L).
      split_and!.
      * simpl. by rewrite HL.
      * intros a Ha Hbuf.
        apply elem_of_cons in Ha as [-> | Ha]; [simpl; split; [done | lia] |].
        apply elem_of_cons in Ha as [-> | Ha]; [done |].
        destruct (Hwr a Ha Hbuf) as [? ?]. split; [done | lia].
      * intros k' Hk'. destruct (decide (k' = k)) as [-> | Hne].
        -- apply list_elem_of_here.
        -- do 2 apply list_elem_of_further. apply Hall. lia.
Qed.

(** While [N] does not exceed the size of [Awrk], the loop copies the
    whole row without leaving the array. *)
Lemma load_row_Ok (m : kmem) :
  N <= AWRK_SIZE ->
  exists Awrk m',
    load_row N A w m = Ok (Awrk, m') /\ load_row_inv N A w m N Awrk m'.
Proof.
  intros Hsize.
  assert (Hmax : N + 1 <= INT_MAX + 1) by (unfold INT_MAX in *; nia).
  destruct (for_loop_rule
              (fun k Awrk m' => k <= N /\ load_row_inv N A w m k Awrk m')
              N 1
              (fun k Awrk =>
                 let! a := read_global w BufA A
                             (int_add (int_mul (global_id0 w) N) k) in
                 write_Awrk w Awrk k a)
              ltac:(lia) Hmax) with
    (fuel := Z.to_nat N) (k := 0) (s := Awrk_fresh) (m := m)
    as (k' & Awrk & m' & Hrun & [Hle Hinv] & Hge & _).
  - intros k Awrk m1 Hk [_ Hinv].
    destruct (load_row_body m k Awrk m1 Hk ltac:(lia) Hinv)
      as (Awrk' & m2 & Hb & Hinv').
    exists Awrk', m2. split; [done |]. split; [lia | done].
  - lia.
  - lia.
  - split; [lia |]. apply load_row_inv_start.
  - exists Awrk, m'. replace k' with N in Hinv by lia. by split.
Qed.

(** [n] iterations that stay inside the array, out of a longer loop. *)
Lemma load_row_prefix (m : kmem) (n fuel : nat) :
  Z.of_nat n <= N -> Z.of_nat n <= AWRK_SIZE ->
  forall k Awrk m1,
    0 <= k -> k + Z.of_nat n <= N -> k + Z.of_nat n <= AWRK_SIZE ->
    load_row_inv N A w m k Awrk m1 ->
    exists Awrk' m2,
      for_loop (n + fuel) k N 1
        (fun k Awrk =>
           let! a := read_global w BufA A
                       (int_add (int_mul (global_id0 w) N) k) in
           write_Awrk w Awrk k a) Awrk m1
      = for_loop fuel (k + Z.of_nat n) N 1
          (fun k Awrk =>
             let! a := read_global w BufA A
                         (int_add (int_mul (global_id0 w) N) k) in
             write_Awrk w Awrk k a) Awrk' m2 /\
      load_row_inv N A w m (k + Z.of_nat n) Awrk' m2.
Proof.
  intros _ _. induction n as [|n IH]; intros k Awrk m1 Hk HkN Hksz Hinv.
  - exists Awrk, m1. rewrite Z.add_0_r. by split.
  - simpl. replace (k <? N) with true by (symmetry; apply Z.ltb_lt; lia).
    destruct (load_row_body m k Awrk m1 ltac:(lia) ltac:(lia) Hinv)
      as (Awrk' & m2 & Hb & Hinv').
    rewrite (bind_Ok _ _ _ _ _ Hb).
    assert (Hadd : int_add k 1 = k + 1).
    { apply wrap_int_small. unfold INT_MAX in *. nia. }
    rewrite Hadd.
    destruct (IH (k + 1) Awrk' m2 ltac:(lia) ltac:(lia) ltac:(lia) Hinv')
      as (Awrk'' & m3 & Hrun & Hinv'').
    exists Awrk'', m3.
    replace (k + Z.of_nat (Datatypes.S n)) with (k + 1 + Z.of_nat n) by lia.
    by split.
Qed.

(** When [N] exceeds the size of [Awrk], the loop runs off its end: the
    write [Awrk[1024]] is the first one outside. *)
Lemma load_row_overflow (m : kmem) :
  AWRK_SIZE < N ->
  load_row N A w m = Err (OutOfBounds BufAwrk AWRK_SIZE).
Proof.
  intros Hsize. unfold load_row.
  replace (Z.to_nat N)
    with (Z.to_nat AWRK_SIZE + Z.to_nat (N - AWRK_SIZE))%nat
    by (unfold AWRK_SIZE in *; lia).
  destruct (load_row_prefix m (Z.to_nat AWRK_SIZE)
              (Z.to_nat (N - AWRK_SIZE))
              ltac:(unfold AWRK_SIZE in *; lia)
              ltac:(unfold AWRK_SIZE in *; lia)
              0 Awrk_fresh m ltac:(lia)
              ltac:(unfold AWRK_SIZE in *; lia)
              ltac:(unfold AWRK_SIZE in *; lia)
              (load_row_inv_start m))
    as (Awrk & m1 & Hrun & Hinv).
  rewrite Hrun. destruct Hinv as (Hlen & _).
  replace (0 + Z.of_nat (Z.to_nat AWRK_SIZE)) with AWRK_SIZE
    by (unfold AWRK_SIZE; lia).
  destruct (Z.to_nat (N - AWRK_SIZE)) as [|fuel] eqn:Hfuel;
    [unfold AWRK_SIZE in *; lia |].
  simpl.
  replace (AWRK_SIZE <? N) with true by (symmetry; apply Z.ltb_lt; lia).
  apply bind_Err. erewrite bind_Ok.
  - apply write_Awrk_Err. rewrite Hlen. unfold AWRK_SIZE. lia.
  - apply read_matrix_Ok; [done | done | done |].
    unfold AWRK_SIZE in *. lia.
Qed.
End private_row.

(** ** Staging a column of B into the scratch *)

Lemma stride_gap (nloc loc k k' : Z) :
  0 < nloc -> k mod nloc = loc -> k' mod nloc = loc ->
  k' < k + nloc -> k' <> k -> k' < k.
Proof.
  intros Hn Hk Hk' Hlt Hne.
  destruct (Z.lt_ge_cases k' k) as [|Hge]; [done | exfalso].
  assert (Hd : (k' - k) mod nloc = 0).
  { rewrite Zminus_mod, Hk, Hk', Z.sub_diag.
    by apply Z.mod_0_l, Z.neq_sym, Z.lt_neq. }
  rewrite Z.mod_small in Hd by lia. lia.
Qed.

Lemma writes_to_cons (b : buffer) (idx : Z) (a : access) (L : list access) :
  writes_to b idx (a :: L)
  = if decide (acc_kind a = Wr /\ acc_buf a = b /\ acc_idx a = idx)
    then a :: writes_to b idx L else writes_to b idx L.
Proof. unfold writes_to. by rewrite filter_cons. Qed.

Lemma writes_to_app (b : buffer) (idx : Z) (L1 L2 : list access) :
  writes_to b idx (L1 ++ L2) = writes_to b idx L1 ++ writes_to b idx L2.
Proof. unfold writes_to. by rewrite filter_app. Qed.

Lemma write_Bwrk_Ok (w : work_item) (k : Z) (v : float32) (m : kmem) :
  0 <= k < Z.of_nat (length (mBwrk m)) ->
  write_Bwrk w k v m
  = Ok (tt, {| mC := mC m; mBwrk := <[Z.to_nat k := v]> (mBwrk m);
               mlog := Access w Wr BufBwrk k :: mlog m |}).
Proof. intros Hk. unfold write_Bwrk. by rewrite in_bounds_true. Qed.

Section staging.
Variables (N : Z) (B : list float32) (j : Z).
Hypothesis HN : N * N <= INT_MAX.
Hypothesis HB : is_matrix N B.
Hypothesis Hj : 0 <= j < N.

Lemma stage_body (w : work_item) (m : kmem) (k : Z) (m1 : kmem) :
  0 < local_size0 w -> 0 <= k < N ->
  stage_inv N B j w m k m1 ->
  exists m2,
    (let! b := read_global w BufB B (int_add (int_mul k N) j) in
     write_Bwrk w k b) m1 = Ok (tt, m2) /\
    stage_inv N B j w m (k + local_size0 w) m2.
Proof.
  intros Hnloc Hk (Hmod & HC & Hlen & Hcont & L & HL & Hwr).
  eexists. split.
  - erewrite bind_Ok by (by apply read_matrix_Ok).
    apply write_Bwrk_Ok. simpl. rewrite Hlen. lia.
  - assert (Hcond : forall k', k' <> k ->
      (k' < k + local_size0 w /\ k' mod local_size0 w = local_id0 w)
      <-> (k' < k /\ k' mod local_size0 w = local_id0 w)).
    { intros k' Hne. split; intros [Hlt Hk']; (split; [| done]); [| lia].
      by apply (stride_gap (local_size0 w) (local_id0 w)). }
    unfold stage_inv. simpl. split_and!.
    + replace (k + local_size0 w) with (k + 1 * local_size0 w) by lia.
      by rewrite Z_mod_plus_full.
    + done.
    + by rewrite length_insert.
    + intros k' Hk'. destruct (decide (k' = k)) as [-> | Hne].
      * rewrite list_lookup_insert_eq by lia.
        by rewrite decide_True by (split; [lia | done]).
      * rewrite list_lookup_insert_ne by lia.
        rewrite (decide_ext _ _ _ _ (Hcond k' Hne)). by apply Hcont.
    + exists (Access w Wr BufBwrk k :: Access w Rd BufB (k * N + j) :: L).
      split; [by rewrite HL |].
      intros k' Hk'. rewrite !writes_to_cons. simpl.
      rewrite Hwr by done.
      destruct (decide (k' = k)) as [-> | Hne].
      * rewrite decide_True by done.
        rewrite (decide_False (P := k < k /\ _)) by lia.
        by rewrite decide_True by (split; [lia | done]).
      * rewrite decide_False by (intros (_ & _ & ?); congruence).
        by rewrite (decide_ext _ _ _ _ (Hcond k' Hne)).
Qed.

(** One member's share of the staging: it writes the indices congruent
    to its local id, each once, and no others. *)
Lemma stage_column_Ok (w : work_item) (m : kmem) :
  0 <= local_id0 w < local_size0 w ->
  N + local_size0 w <= INT_MAX + 1 ->
  length (mBwrk m) = Z.to_nat N ->
  exists k m',
    stage_column N B j w m = Ok (tt, m') /\
    N <= k /\ stage_inv N B j w m k m'.
Proof.
  intros Hloc Hmax Hlen.
  destruct (for_loop_rule
              (fun k (_ : unit) m' => stage_inv N B j w m k m')
              N (local_size0 w)
              (fun k _ =>
                 let! b := read_global w BufB B (int_add (int_mul k N) j) in
                 write_Bwrk w k b)
              ltac:(lia) Hmax) with
    (fuel := Z.to_nat N) (k := local_id0 w) (s := tt) (m := m)
    as (k' & [] & m' & Hrun & Hinv & Hge & _).
  - intros k [] m1 Hk Hinv.
    destruct (stage_body w m k m1 ltac:(lia) Hk Hinv) as (m2 & Hb & Hinv').
    by exists tt, m2.
  - lia.
  - lia.
  - unfold stage_inv. split_and!; [| done | done | |].
    + apply Z.mod_small. lia.
    + intros k' Hk'. rewrite decide_False; [done |].
      intros [Hlt Hmod]. rewrite Z.mod_small in Hmod by lia. lia.
    + exists []. split; [done |]. intros k' Hk'.
      rewrite decide_False; [done |].
      intros [Hlt Hmod]. rewrite Z.mod_small in Hmod by lia. lia.
  - by exists k', m'.
Qed.
End staging.

(** ** A team stages a column *)

Lemma team_members_lookup (g nloc : Z) (n : nat) (w : work_item) :
  team_members g nloc !! n = Some w ->
  w = member g nloc (Z.of_nat n) /\ Z.of_nat n < nloc.
Proof.
  unfold team_members. rewrite list_lookup_fmap.
  destruct (seqZ 0 nloc !! n) as [loc|] eqn:Hloc; [| done].
  apply lookup_seqZ in Hloc as [-> Hn]. simpl. intros [= <-].
  by rewrite Z.add_0_l.
Qed.

Lemma team_members_length (g nloc : Z) :
  length (team_members g nloc) = Z.to_nat nloc.
Proof. unfold team_members. by rewrite length_fmap, length_seqZ. Qed.

Section team_staging.
Variables (N : Z) (B : list float32) (j g nloc : Z).
Hypothesis HN : N * N <= INT_MAX.
Hypothesis HB : is_matrix N B.
Hypothesis Hj : 0 <= j < N.
Hypothesis Hnloc : 0 < nloc.
Hypothesis Hmax : N + nloc <= INT_MAX + 1.

Lemma team_stage_step (m : kmem) (n : nat) (m1 : kmem) :
  Z.of_nat n < nloc ->
  team_stage_inv N B j g nloc m n m1 ->
  exists m2,
    stage_column N B j (member g nloc (Z.of_nat n)) m1 = Ok (tt, m2) /\
    team_stage_inv N B j g nloc m (Datatypes.S n) m2.
Proof.
  intros Hn (HC & Hlen & Hcont & L1 & HL1 & Hwr1).
  destruct (stage_column_Ok N B j HN HB Hj (member g nloc (Z.of_nat n)) m1)
    as (kf & m2 & Hrun & Hkf & Hmod & HC2 & Hlen2 & Hcont2 & L2 & HL2 & Hwr2);
    [simpl; lia | done | done |].
  simpl in *. exists m2. split; [done |].
  assert (Hcase : forall k, 0 <= k < N ->
    (k < kf /\ k mod nloc = Z.of_nat n) <-> k mod nloc = Z.of_nat n).
  { intros k Hk. split; [by intros [_ ?] | intros ?; split; [lia | done]]. }
  unfold team_stage_inv. split_and!.
  - congruence.
  - done.
  - intros k Hk. rewrite Hcont2 by done.
    rewrite (decide_ext _ _ _ _ (Hcase k Hk)).
    rewrite Hcont by done.
    repeat case_decide; try done; lia.
  - exists (L2 ++ L1). split; [by rewrite HL2, HL1, app_assoc |].
    intros k Hk. rewrite writes_to_app, Hwr2, Hwr1 by done.
    rewrite (decide_ext _ _ _ _ (Hcase k Hk)).
    repeat case_decide; try done; try lia.
    simpl. by replace (k mod nloc) with (Z.of_nat n).
Qed.

(** Before the barrier of epoch [j]: every cell of the scratch has been
    written once, by the member whose local id is [k mod nloc], and holds
    column [j] of [B]. *)
Lemma team_stage_Ok (m : kmem) :
  length (mBwrk m) = Z.to_nat N ->
  exists m',
    team_stage N B j (team_members g nloc) m = Ok (tt, m') /\
    mC m' = mC m /\
    length (mBwrk m') = Z.to_nat N /\
    (forall k, 0 <= k < N ->
       mBwrk m' !! Z.to_nat k = Some (cell N B k j)) /\
    exists L, mlog m' = L ++ mlog m /\
      forall k, 0 <= k < N ->
        writes_to BufBwrk k L
        = [Access (member g nloc (k mod nloc)) Wr BufBwrk k].
Proof.
  intros Hlen. unfold team_stage.
  destruct (run_items_rule (team_stage_inv N B j g nloc m)
              (stage_column N B j) (team_members g nloc)) with (m := m)
    as (m' & Hrun & HC & Hlen' & Hcont & L & HL & Hwr).
  - intros n w m1 Hw Hinv.
    apply team_members_lookup in Hw as [-> Hn].
    by apply team_stage_step.
  - unfold team_stage_inv. split_and!; [done | done | |].
    + intros k Hk. rewrite decide_False; [done |].
      pose proof (Z.mod_pos_bound k nloc Hnloc). lia.
    + exists []. split; [done |]. intros k Hk.
      rewrite decide_False; [done |].
      pose proof (Z.mod_pos_bound k nloc Hnloc). lia.
  - rewrite team_members_length in *.
    assert (Hall : forall k, k mod nloc < Z.of_nat (Z.to_nat nloc)).
    { intros k. pose proof (Z.mod_pos_bound k nloc Hnloc). lia. }
    exists m'. split_and!; [done | done | done | |].
    + intros k Hk. rewrite Hcont by done. by rewrite decide_True.
    + exists L. split; [done |]. intros k Hk.
      rewrite Hwr by done. by rewrite decide_True.
Qed.
End team_staging.

(** ** Accumulating a dot product from the private row *)

Lemma sum_upto_ext (n : nat) (t1 t2 : Z -> float32) :
  (forall k, 0 <= k < Z.of_nat n -> t1 k = t2 k) ->
  sum_upto n t1 = sum_upto n t2.
Proof.
  induction n as [|n IH]; intros Hext; simpl; [done |].
  rewrite IH by (intros k Hk; apply Hext; lia).
  by rewrite Hext by lia.
Qed.

Lemma dot_private_row (N : Z) (A B : list float32) (i j : Z)
  (Awrk : private_array) :
  row_loaded N A i Awrk -> dot_private N Awrk B j = dot N A B i j.
Proof.
  intros Hrow. unfold dot_private, dot. apply sum_upto_ext.
  intros k Hk. by rewrite Hrow by lia.
Qed.

Lemma row_loaded_initialised (N : Z) (A : list float32) (i : Z)
  (Awrk : private_array) :
  row_loaded N A i Awrk -> row_initialised N Awrk.
Proof. intros Hrow k Hk. eexists. by apply Hrow. Qed.

Lemma read_Awrk_Ok (w : work_item) (Awrk : private_array) (k : Z)
  (v : float32) (m : kmem) :
  0 <= k -> Awrk !! Z.to_nat k = Some (Some v) ->
  read_Awrk w Awrk k m = Ok (v, logged (Access w Rd BufAwrk k) m).
Proof.
  intros Hk Hv. unfold read_Awrk. rewrite in_bounds_true.
  - by rewrite Hv.
  - apply lookup_lt_Some in Hv. lia.
Qed.

Section accumulation.
Variables (N : Z) (B : list float32) (j : Z).
Hypothesis HN : N * N <= INT_MAX.
Hypothesis HB : is_matrix N B.
Hypothesis Hj : 0 <= j < N.

(** The accumulation reads the private row and the global matrix [B],
    and nothing else; it writes nothing. *)
Lemma accumulate_Ok (Awrk : private_array) (w : work_item) (m : kmem) :
  row_initialised N Awrk ->
  exists m',
    accumulate N B j Awrk w m = Ok (dot_private N Awrk B j, m') /\
    mC m' = mC m /\ mBwrk m' = mBwrk m /\
    exists L, mlog m' = L ++ mlog m /\
      forall a, a ∈ L ->
        acc_kind a = Rd /\ (acc_buf a = BufAwrk \/ acc_buf a = BufB).
Proof.
  intros Hinit.
  assert (Hmax : N + 1 <= INT_MAX + 1) by (unfold INT_MAX in *; nia).
  destruct (for_loop_rule
              (fun k tmp m' =>
                 k <= N /\ accumulate_inv N B j Awrk m k tmp m')
              N 1
              (fun k tmp =>
                 let! a := read_Awrk w Awrk k in
                 let! b := read_global w BufB B (int_add (int_mul k N) j) in
                 ret (f32_add tmp (f32_mul a b)))
              ltac:(lia) Hmax) with
    (fuel := Z.to_nat N) (k := 0) (s := f32_zero) (m := m)
    as (k' & tmp & m' & Hrun & [Hle (Htmp & HC & HBw & HL)] & Hge & _).
  - intros k tmp m1 Hk (_ & Htmp & HC & HBw & L & HL & Hrd).
    destruct (Hinit k Hk) as [v Hv].
    do 2 eexists. split.
    + erewrite bind_Ok by (apply read_Awrk_Ok; [lia | exact Hv]).
      erewrite bind_Ok by (by apply read_matrix_Ok).
      reflexivity.
    + split; [lia |]. unfold accumulate_inv. simpl. split_and!.
      * replace (Z.to_nat (k + 1)) with (Datatypes.S (Z.to_nat k)) by lia.
        simpl. rewrite Z2Nat.id by lia. rewrite Hv. simpl. by rewrite Htmp.
      * done.
      * done.
      * exists (Access w Rd BufB (k * N + j) :: Access w Rd BufAwrk k :: L).
        split; [by rewrite HL |].
        intros a Ha.
        apply elem_of_cons in Ha as [-> | Ha]; [simpl; auto |].
        apply elem_of_cons in Ha as [-> | Ha]; [simpl; auto |].
        by apply Hrd.
  - lia.
  - lia.
  - split; [lia |]. unfold accumulate_inv. split_and!; [done | done | done |].
    exists []. split; [done |]. intros a Ha. by apply not_elem_of_nil in Ha.
  - exists m'. replace k' with N in Htmp by lia. subst tmp.
    split; [exact Hrun | done].
Qed.
End accumulation.

(** ** One work-item adds its dot product to its cell of C *)

Section consuming.
Variables (N : Z) (A B : list float32).
Hypothesis HN : N * N <= INT_MAX.
Hypothesis HB : is_matrix N B.

Lemma consume_column_step (C0 : list float32) (D D' : Z -> Z -> Prop)
  (j : Z) (Awrk : private_array) (w : work_item) (m : kmem) :
  0 <= global_id0 w < N -> 0 <= j < N ->
  row_loaded N A (global_id0 w) Awrk ->
  swept N C0 (accumulated N A B) D (mC m) ->
  ~ D (global_id0 w) j ->
  (forall i' j', 0 <= i' < N -> 0 <= j' < N ->
     D' i' j' <-> D i' j' \/ (i' = global_id0 w /\ j' = j)) ->
  exists m',
    consume_column N B j Awrk w m = Ok (tt, m') /\
    swept N C0 (accumulated N A B) D' (mC m') /\
    mBwrk m' = mBwrk m.
Proof.
  intros Hi Hj Hrow Hsw HnD Hiff. unfold consume_column.
  destruct (accumulate_Ok N B j HN HB Hj Awrk w m)
    as (m1 & Hacc & HC1 & HBw1 & _);
    [by eapply row_loaded_initialised |].
  rewrite (bind_Ok _ _ _ _ _ Hacc).
  rewrite (dot_private_row N A B (global_id0 w) j Awrk Hrow).
  assert (Hcell : mC m1 !! Z.to_nat (global_id0 w * N + j)
                  = Some (cell N C0 (global_id0 w) j)).
  { rewrite HC1. destruct Hsw as [_ Hc]. by apply Hc. }
  pose proof (index_bounds N _ _ Hi Hj) as Hb.
  unfold add_to_C. rewrite int_index by done.
  assert (Hrd : read_C w (global_id0 w * N + j) m1
                = Ok (cell N C0 (global_id0 w) j,
                      logged (Access w Rd BufC (global_id0 w * N + j)) m1)).
  { unfold read_C. apply read_global_Ok; [lia | done]. }
  rewrite (bind_Ok _ _ _ _ _ Hrd).
  unfold write_C. simpl. rewrite in_bounds_true.
  - eexists. split; [done |]. simpl. split; [| done].
    rewrite HC1.
    by apply (swept_step N C0 (mC m) (accumulated N A B) D D').
  - rewrite HC1. destruct Hsw as [HM _]. rewrite HM. lia.
Qed.
End consuming.

(** ** A work-group, and the whole range *)

Section teams.
Variables (N : Z) (A B : list float32).
Hypothesis HN : 0 < N <= AWRK_SIZE.
Hypothesis HA : is_matrix N A.
Hypothesis HB : is_matrix N B.

Lemma order_fits_int : N * N <= INT_MAX.
Proof. unfold AWRK_SIZE, INT_MAX in *. nia. Qed.

Lemma load_rows_Ok (ws : list work_item) (m : kmem) :
  (forall w, w ∈ ws -> 0 <= global_id0 w < N) ->
  exists rows m',
    load_rows N A ws m = Ok (rows, m') /\
    mC m' = mC m /\ mBwrk m' = mBwrk m /\
    length rows = length ws /\
    forall n w, ws !! n = Some w ->
      exists Awrk, rows !! n = Some (w, Awrk) /\
                   row_loaded N A (global_id0 w) Awrk.
Proof.
  revert m. induction ws as [|w ws IH]; intros m Hws; simpl.
  - exists [], m. split_and!; try done.
  - destruct (load_row_Ok N A w order_fits_int HA
                ltac:(apply Hws, list_elem_of_here) m ltac:(lia))
      as (Awrk & m1 & Hrow & _ & Hloaded & HC1 & HBw1 & _).
    rewrite (bind_Ok _ _ _ _ _ Hrow).
    destruct (IH m1) as (rows & m2 & Hrows & HC2 & HBw2 & Hlen & Hall).
    { intros w' Hw'. by apply Hws, list_elem_of_further. }
    rewrite (bind_Ok _ _ _ _ _ Hrows).
    exists ((w, Awrk) :: rows), m2.
    split_and!; [done | congruence | congruence | simpl; by rewrite Hlen |].
    intros [|n] w' Hw'; simpl in *.
    + injection Hw' as <-. by exists Awrk.
    + by apply Hall.
Qed.

Section one_team.
Variables (g nloc : Z).
Hypothesis Hg : 0 <= g.
Hypothesis Hnloc : 0 < nloc.
Hypothesis Hrows : (g + 1) * nloc <= N.

Lemma team_members_rows (w : work_item) :
  w ∈ team_members g nloc -> 0 <= global_id0 w < N.
Proof.
  intros Hw. apply list_elem_of_lookup in Hw as [n Hn].
  apply team_members_lookup in Hn as [-> Hn]. simpl. nia.
Qed.

Lemma team_guard :
  forallb (fun w => global_id0 w <? N) (team_members g nloc) = true.
Proof.
  apply forallb_forall. intros w Hw. apply list_elem_of_In in Hw.
  apply Z.ltb_lt. by apply team_members_rows.
Qed.

(** The members of the team use column [j], one after the other. *)
Lemma team_consume (C0 : list float32) (D : Z -> Z -> Prop) (j : Z)
  (rows : list (work_item * private_array)) (m : kmem) :
  0 <= j < N ->
  (forall i j, D i j -> ~ team_row g nloc i) ->
  length rows = Z.to_nat nloc ->
  (forall n w, team_members g nloc !! n = Some w ->
     exists Awrk, rows !! n = Some (w, Awrk) /\
                  row_loaded N A (global_id0 w) Awrk) ->
  swept N C0 (accumulated N A B)
    (fun i' j' => D i' j' \/ (team_row g nloc i' /\ j' < j)) (mC m) ->
  exists m',
    run_items rows (fun r => consume_column N B j (snd r) (fst r)) m
    = Ok (tt, m') /\
    swept N C0 (accumulated N A B)
      (fun i' j' => D i' j' \/ (team_row g nloc i' /\ j' < j + 1)) (mC m') /\
    mBwrk m' = mBwrk m.
Proof.
  intros Hj HD Hlen Hall Hsw.
  pose (J := fun (n : nat) (m' : kmem) =>
    swept N C0 (accumulated N A B)
      (fun i' j' => D i' j' \/
         (team_row g nloc i' /\
          (j' < j \/ (j' = j /\ i' < g * nloc + Z.of_nat n))))
      (mC m') /\
    mBwrk m' = mBwrk m).
  destruct (run_items_rule J
              (fun r => consume_column N B j (snd r) (fst r)) rows)
    with (m := m) as (m' & Hrun & Hsw' & HBw').
  - intros n [w Awrk] m1 Hr [Hsw1 HBw1].
    assert (Hn : (n < Z.to_nat nloc)%nat).
    { rewrite <- Hlen. by eapply lookup_lt_Some. }
    destruct (lookup_lt_is_Some_2 (team_members g nloc) n) as [w' Hw'].
    { by rewrite team_members_length. }
    destruct (Hall n w' Hw') as (Awrk' & Hr' & Hloaded).
    rewrite Hr in Hr'. injection Hr' as <- <-.
    apply team_members_lookup in Hw' as [-> _]. simpl in *.
    destruct (consume_column_step N A B order_fits_int HB C0
                (fun i' j' => D i' j' \/
                   (team_row g nloc i' /\
                    (j' < j \/ (j' = j /\ i' < g * nloc + Z.of_nat n))))
                (fun i' j' => D i' j' \/
                   (team_row g nloc i' /\
                    (j' < j \/
                     (j' = j /\ i' < g * nloc + Z.of_nat (Datatypes.S n)))))
                j Awrk (member g nloc (Z.of_nat n)) m1)
      as (m2 & Hrun & Hsw2 & HBw2); simpl.
    + nia.
    + done.
    + done.
    + exact Hsw1.
    + intros [HDi | [Hteam Hcol]]; [| lia].
      apply (HD _ _ HDi). unfold team_row. lia.
    + intros i' j' Hi' Hj'. unfold team_row. intuition lia.
    + exists m2. split; [done |]. split; [done | congruence].
  - split; [| done]. eapply swept_weaken; [exact Hsw |].
    intros i' j' Hi' Hj'. unfold team_row. simpl. intuition lia.
  - exists m'. split; [done |]. split; [| done].
    eapply swept_weaken; [exact Hsw' |].
    intros i' j' Hi' Hj'. rewrite Hlen. unfold team_row. intuition lia.
Qed.

(** A whole work-group: its rows of C each gain their dot products,
    the other rows stay as they are. *)
Lemma run_team_Ok (C0 : list float32) (D : Z -> Z -> Prop) (m : kmem) :
  (forall i j, D i j -> ~ team_row g nloc i) ->
  length (mBwrk m) = Z.to_nat N ->
  swept N C0 (accumulated N A B) D (mC m) ->
  exists m',
    run_team N A B (team_members g nloc) m = Ok (tt, m') /\
    swept N C0 (accumulated N A B)
      (fun i' j' => D i' j' \/ team_row g nloc i') (mC m') /\
    length (mBwrk m') = Z.to_nat N.
Proof.
  intros HD Hlen Hsw. unfold run_team. rewrite team_guard.
  destruct (load_rows_Ok (team_members g nloc) m team_members_rows)
    as (rows & m1 & Hload & HC1 & HBw1 & Hlenr & Hall).
  rewrite (bind_Ok _ _ _ _ _ Hload).
  rewrite team_members_length in Hlenr.
  pose (I := fun (j : Z) (_ : unit) (m' : kmem) =>
    j <= N /\
    swept N C0 (accumulated N A B)
      (fun i' j' => D i' j' \/ (team_row g nloc i' /\ j' < j)) (mC m') /\
    length (mBwrk m') = Z.to_nat N).
  assert (Hmax : N + 1 <= INT_MAX + 1)
    by (unfold AWRK_SIZE, INT_MAX in *; lia).
  destruct (for_loop_rule I N 1
              (fun j _ =>
                 let! _ := team_stage N B j (team_members g nloc) in
                 run_items rows
                   (fun r => consume_column N B j (snd r) (fst r)))
              ltac:(lia) Hmax) with
    (fuel := Z.to_nat N) (k := 0) (s := tt) (m := m1)
    as (j' & [] & m' & Hrun & (Hle & Hsw' & Hlen') & Hge & _).
  - intros j [] m2 Hj (_ & Hsw2 & Hlen2).
    destruct (team_stage_Ok N B j g nloc order_fits_int HB Hj Hnloc
                ltac:(unfold AWRK_SIZE, INT_MAX in *; nia) m2 Hlen2)
      as (m3 & Hstage & HC3 & Hlen3 & _).
    destruct (team_consume C0 D j rows m3 Hj HD Hlenr Hall)
      as (m4 & Hcons & Hsw4 & HBw4); [by rewrite HC3 |].
    exists tt, m4. split.
    + by rewrite (bind_Ok _ _ _ _ _ Hstage).
    + unfold I. split_and!; [lia | done | congruence].
  - lia.
  - lia.
  - unfold I. split_and!; [lia | | congruence].
    rewrite HC1. eapply swept_weaken; [exact Hsw |].
    intros i' j' Hi' Hj'. intuition lia.
  - exists m'. split; [exact Hrun |]. split; [| done].
    eapply swept_weaken; [exact Hsw' |].
    intros i' j0 Hi' Hj0. intuition lia.
Qed.
End one_team.

(** The launch: with a local size that divides [N], every cell of C has
    gained its dot product. *)
Lemma tiled_launch_Ok (nloc : Z) (m : kmem) :
  0 < nloc -> N mod nloc = 0 ->
  is_matrix N (mC m) ->
  length (mBwrk m) = Z.to_nat N ->
  exists m',
    tiled_launch N nloc N A B m = Ok (tt, m') /\
    swept N (mC m) (accumulated N A B) (fun _ _ => True) (mC m') /\
    length (mBwrk m') = Z.to_nat N.
Proof.
  intros Hnloc Hdiv HC Hlen. unfold tiled_launch.
  assert (HNdiv : N = nloc * (N / nloc)).
  { pose proof (Z.div_mod N nloc ltac:(lia)). lia. }
  assert (Hgroups : 0 <= N / nloc) by (apply Z.div_pos; lia).
  pose (I := fun (n : nat) (m' : kmem) =>
    swept N (mC m) (accumulated N A B)
      (fun i _ => i < Z.of_nat n * nloc) (mC m') /\
    length (mBwrk m') = Z.to_nat N).
  destruct (run_items_rule I
              (fun g => run_team N A B (team_members g nloc))
              (seqZ 0 (N / nloc))) with (m := m)
    as (m' & Hrun & Hsw & Hlen').
  - intros n g m1 Hg [Hsw1 Hlen1]. apply lookup_seqZ in Hg as [-> Hg].
    rewrite Z.add_0_l.
    destruct (run_team_Ok (Z.of_nat n) nloc ltac:(lia) Hnloc ltac:(nia)
                (mC m) (fun i _ => i < Z.of_nat n * nloc) m1)
      as (m2 & Hrun & Hsw2 & Hlen2); [| done | done |].
    + intros i j Hi. unfold team_row. lia.
    + exists m2. split; [done |]. split; [| done].
      eapply swept_weaken; [exact Hsw2 |].
      intros i j Hi Hj. unfold team_row. nia.
  - split; [| done]. apply swept_start; [done |]. intros i j Hi Hj. lia.
  - exists m'. split; [done |]. split; [| done].
    eapply swept_weaken; [exact Hsw |].
    intros i j Hi Hj. rewrite length_seqZ. split; [nia | done].
Qed.
End teams.

(** A team of one is the kernel as a single work-item runs it: the
    barrier has nobody to wait for. *)
Lemma for_loop_ext {S} (body1 body2 : Z -> S -> K S) (N step : Z) :
  (forall k s m, body1 k s m = body2 k s m) ->
  forall (fuel : nat) k s m,
    for_loop fuel k N step body1 s m = for_loop fuel k N step body2 s m.
Proof.
  intros Hext fuel. induction fuel as [|fuel IH]; intros k s m; simpl.
  - done.
  - destruct (k <? N); [| done]. unfold bind. rewrite Hext.
    destruct (body2 k s m) as [[s' m'] | e]; [apply IH | done].
Qed.

Lemma run_team_single (N : Z) (A B : list float32) (w : work_item)
  (m : kmem) :
  run_team N A B [w] m
  = optimized_rowCPerWorkItemAPrivateBLocal_mmul N A B w m.
Proof.
  unfold run_team, optimized_rowCPerWorkItemAPrivateBLocal_mmul. simpl.
  destruct (global_id0 w <? N); simpl; [| done].
  unfold bind, ret.
  destruct (load_row N A w m) as [[Awrk m1] | e]; simpl; [| done].
  apply for_loop_ext. intros j [] m2.
  unfold team_stage. simpl. unfold bind, ret.
  destruct (stage_column N B j w m2) as [[[] m3] | e]; [| done].
  by destruct (consume_column N B j Awrk w m3) as [[[] m4] | e].
Qed.

(** ** The reference multiplier *)

Lemma seq_mat_mul_sdot_length (N : Z) (A B : list float32) :
  is_matrix N (seq_mat_mul_sdot N A B).
Proof.
  unfold is_matrix, seq_mat_mul_sdot. by rewrite length_fmap, length_seqZ.
Qed.

Lemma seq_mat_mul_sdot_lookup (N : Z) (A B : list float32) (i j : Z) :
  0 <= i < N -> 0 <= j < N ->
  seq_mat_mul_sdot N A B !! Z.to_nat (i * N + j) = Some (dot N A B i j).
Proof.
  intros Hi Hj. pose proof (index_bounds N i j Hi Hj) as Hb.
  unfold seq_mat_mul_sdot. rewrite list_lookup_fmap.
  rewrite lookup_seqZ_lt by lia. simpl.
  rewrite Z2Nat.id by lia. rewrite Z.add_0_l.
  replace ((i * N + j) / N) with i by (apply Z.div_unique with j; lia).
  replace ((i * N + j) mod N) with j by (apply Z.mod_unique with i; lia).
  done.
Qed.

(** A matrix is determined by its cells. *)
Lemma matrix_eq (N : Z) (C C' : list float32) :
  0 <= N -> is_matrix N C -> is_matrix N C' ->
  (forall i j, 0 <= i < N -> 0 <= j < N ->
     C !! Z.to_nat (i * N + j) = C' !! Z.to_nat (i * N + j)) ->
  C = C'.
Proof.
  intros HN HC HC' Hcells. apply list_eq. intros n.
  destruct (decide (n < Z.to_nat (N * N))%nat) as [Hn | Hn].
  - assert (HNpos : 0 < N) by nia.
    pose proof (Z.div_mod (Z.of_nat n) N ltac:(lia)) as Hdm.
    pose proof (Z.mod_pos_bound (Z.of_nat n) N HNpos) as Hmod.
    assert (Hdiv : 0 <= Z.of_nat n / N < N).
    { split; [apply Z.div_pos; lia |]. apply Z.div_lt_upper_bound; lia. }
    specialize (Hcells _ _ Hdiv Hmod).
    replace (Z.to_nat (Z.of_nat n / N * N + Z.of_nat n mod N)) with n
      in Hcells by lia.
    done.
  - rewrite !lookup_ge_None_2; [done | rewrite HC'; lia | rewrite HC; lia].
Qed.

(** The launch of [mmul] leaves in C exactly the reference product. *)
Lemma naive_launch_reference (N : Z) (A B : list float32) (m : kmem) :
  0 < N -> N * N <= INT_MAX ->
  is_matrix N A -> is_matrix N B -> is_matrix N (mC m) ->
  exists m',
    naive_launch N A B m = Ok (tt, m') /\
    mC m' = seq_mat_mul_sdot N A B /\ mBwrk m' = mBwrk m.
Proof.
  intros HNpos HN HA HB HC.
  destruct (naive_launch_Ok N A B HN HA HB m HC) as (m' & Hrun & Hsw & HBw).
  exists m'. split; [done |]. split; [| done].
  apply (matrix_eq N); [lia | apply Hsw | apply seq_mat_mul_sdot_length |].
  intros i j Hi Hj. rewrite seq_mat_mul_sdot_lookup by done.
  by apply (swept_lookup N (mC m) (mC m') _ _ i j Hsw).
Qed.

(** ** The tiled kernel on a zeroed C *)





(** ** The repetitions of the tiled strategy *)

(** One repetition of the loop of lines 241-258 that raises no error:
    what is read back and handed to [results] is the previous content of
    [d_c] with the product added to it.  Zeroing [h_C] has no part in it. *)
Lemma tiled_rep_accumulates (p : platform) (i : Z) (h : host) :
  0 < ORDER p <= AWRK_SIZE ->
  0 < ORDER p / 16 -> ORDER p mod (ORDER p / 16) = 0 ->
  is_matrix (ORDER p) (d_a h) -> is_matrix (ORDER p) (d_b h) ->
  is_matrix (ORDER p) (d_c h) ->
  length (fresh_Bwrk p) = Z.to_nat (ORDER p) ->
  throws p (Enqueue Tiled i) = None ->
  throws p (Finish Tiled i) = None ->
  throws p (CopyBack Tiled i) = None ->
  exists h',
    tiled_rep p i h = (Normal tt, h') /\
    d_a h' = d_a h /\ d_b h' = d_b h /\
    h_C h' = d_c h' /\
    out h' = Results Tiled (ORDER p) (d_c h') :: Invoke Tiled :: out h /\
    is_matrix (ORDER p) (d_c h') /\
    forall r c, 0 <= r < ORDER p -> 0 <= c < ORDER p ->
      d_c h' !! Z.to_nat (r * ORDER p + c)
      = Some (f32_add (cell (ORDER p) (d_c h) r c)
                      (dot (ORDER p) (d_a h) (d_b h) r c)).
Proof.
  intros HN Hnloc Hdiv HA HB HC HBw Henq Hfin Hcopy.
  destruct (tiled_launch_Ok (ORDER p) (d_a h) (d_b h) HN HA HB
              (ORDER p / 16)
              {| mC := d_c h; mBwrk := fresh_Bwrk p; mlog := [] |}
              Hnloc Hdiv HC HBw)
    as (m' & Hrun & Hsw & _).
  unfold tiled_rep, hbind, set_h_C, call, emit, on_device.
  rewrite Henq, Hfin, Hcopy. simpl.
  replace (0 <? ORDER p / 16) with true by (symmetry; by apply Z.ltb_lt).
  replace (ORDER p mod (ORDER p / 16) =? 0) with true
    by (symmetry; by apply Z.eqb_eq).
  simpl. rewrite Hrun. simpl.
  eexists. split; [reflexivity |]. simpl.
  split_and!; [done | done | done | done | apply Hsw |].
  intros r c Hr Hc.
  by apply (swept_lookup _ (d_c h) (mC m') _ _ r c Hsw).
Qed.

(** ** The naive kernel on any device *)

Lemma naive_launch_with_separate (N : Z) (A B : list float32) :
  naive_launch_with mac_separate N A B = naive_launch N A B.
Proof. reflexivity. Qed.

Lemma accumulate_with_separate
  (mac : float32 -> float32 -> float32 -> float32) (n : nat)
  (a b : Z -> float32) :
  (forall t x y, mac t x y = f32_add t (f32_mul x y)) ->
  accumulate_with mac n a b = sum_upto n (fun k => f32_mul (a k) (b k)).
Proof.
  intros Hmac. induction n as [|n IH]; simpl; [done |].
  by rewrite Hmac, IH.
Qed.

(** * The claims *)

(** C1 (the code departs from it).  The launch of the second repetition
    of the tiled strategy on matrices of order 16 filled with ones: [d_c]
    still holds the product left by the first repetition, and every
    element comes out as 32 where the reference product is 16. *)
Theorem tiled_launch_on_used_buffer :
  result_C (tiled_launch 16 (16 / 16) 16 (ones 256) (ones 256))
    {| mC := seq_mat_mul_sdot 16 (ones 256) (ones 256);
       mBwrk := zeros 16; mlog := [] |}
  = Ok (replicate 256 (f32_pow2 5)) /\
  seq_mat_mul_sdot 16 (ones 256) (ones 256) = replicate 256 (f32_pow2 4).
Proof. split; vm_compute; reflexivity. Qed.

(** C2 (the code departs from it).  A run of [main] with order 16 and two
    repetitions, on matrices filled with ones and a new [d_c] full of
    zeros: the two matrices read back from the tiled strategy differ (16
    everywhere, then 32 everywhere), while those of the naive strategy are
    the same. *)
Theorem tiled_readbacks_differ :
  let trace := fst (main (constant_run 16 2 no_error)) in
  readbacks Tiled trace
  = [replicate 256 (f32_pow2 4); replicate 256 (f32_pow2 5)] /\
  readbacks Naive trace
  = [replicate 256 (f32_pow2 4); replicate 256 (f32_pow2 4)].
Proof. split; vm_compute; reflexivity. Qed.

(** C3 (the code departs from it).  Whenever a [cl::Error] reaches the
    handler, [main] prints "Exception" and the diagnostic and then ends
    with [EXIT_SUCCESS]. *)
Theorem runtime_error_exits_with_success (p : platform) (e : cl_error)
  (h : host) :
  main_try p (initial_host p) = (Throw e, h) ->
  main p
  = (rev (out h) ++ [Cout ("Exception" ++ nl); CerrError e],
     Exit EXIT_SUCCESS).
Proof.
  intros Htry. unfold main. rewrite Htry. simpl.
  by rewrite <- app_assoc.
Qed.

Lemma runtime_error_exits_with_success_witness :
  exists h,
    main_try (constant_run 16 1 build_fails)
      (initial_host (constant_run 16 1 build_fails))
    = (Throw build_error, h) /\
    main (constant_run 16 1 build_fails)
    = (rev (out h) ++ [Cout ("Exception" ++ nl); CerrError build_error],
       Exit EXIT_SUCCESS).
Proof.
  assert (Hthrow : { h | main_try (constant_run 16 1 build_fails)
                           (initial_host (constant_run 16 1 build_fails))
                         = (Throw build_error, h) }).
  { eexists. vm_compute. reflexivity. }
  destruct Hthrow as [h Hthrow]. exists h. split; [exact Hthrow |].
  apply (runtime_error_exits_with_success _ _ _ Hthrow).
Defined.

(** C4.  When the device index is not below the number of devices, [main]
    prints the diagnostic "Invalid device index (try '--list')", ends with
    [EXIT_FAILURE], and has invoked no multiplication strategy: the
    diagnostic is all it has produced. *)
Theorem invalid_device_index_fails (p : platform) :
  throws p ParseArguments = None ->
  throws p GetDeviceList = None ->
  numDevices p <= deviceIndex p ->
  main p
  = ([Cout ("Invalid device index (try '--list')" ++ nl)], Exit EXIT_FAILURE)
  /\ forall s, Invoke s ∉ fst (main p).
Proof.
  intros Hparse Hlist Hidx.
  assert (Hmain : main p
    = ([Cout ("Invalid device index (try '--list')" ++ nl)],
       Exit EXIT_FAILURE)).
  { unfold main, main_try, hbind, call. rewrite Hparse, Hlist.
    replace (numDevices p <=? deviceIndex p) with true
      by (symmetry; by apply Z.leb_le).
    reflexivity. }
  split; [done |]. intros s. rewrite Hmain. simpl.
  intros Hin. apply list_elem_of_singleton in Hin. discriminate Hin.
Qed.

Lemma invalid_device_index_fails_witness :
  let p := {| ORDER := 16; COUNT := 1; deviceIndex := 3; numDevices := 1;
              deviceName := "device";
              initmat_A := ones 256; initmat_B := ones 256;
              initmat_C := zeros 256; fresh_d_c := fun _ => zeros 256;
              fresh_Bwrk := zeros 16; throws := no_error |} in
  main p
  = ([Cout ("Invalid device index (try '--list')" ++ nl)], Exit EXIT_FAILURE)
  /\ forall s, Invoke s ∉ fst (main p).
Proof.
  intros p. apply (invalid_device_index_fails p); [reflexivity | reflexivity |].
  simpl. lia.
Defined.



(** C6.  For every column [j], the value accumulated after the barrier is
    the sum over [k] in [[0, N)] of [PrivateRow[k] * B[k*N+j]]; the
    accumulation touches the private row and the global matrix [B] only,
    so the result is the same whatever the scratch buffer holds. *)
Theorem accumulation_ignores_scratch (N : Z) (B : list float32) (j : Z)
  (Awrk : private_array) (w : work_item) (m : kmem) :
  N * N <= INT_MAX -> is_matrix N B -> 0 <= j < N ->
  row_initialised N Awrk ->
  (exists m' L,
     accumulate N B j Awrk w m = Ok (dot_private N Awrk B j, m') /\
     mlog m' = L ++ mlog m /\
     forall a, a ∈ L -> acc_buf a <> BufBwrk) /\
  forall Bwrk' : list float32,
    exists m',
      accumulate N B j Awrk w
        {| mC := mC m; mBwrk := Bwrk'; mlog := mlog m |}
      = Ok (dot_private N Awrk B j, m').
Proof.
  intros HN HB Hj Hinit. split.
  - destruct (accumulate_Ok N B j HN HB Hj Awrk w m Hinit)
      as (m' & Hrun & _ & _ & L & HL & Hrd).
    exists m', L. split_and!; [done | done |].
    intros a Ha Hbuf. destruct (Hrd a Ha) as [_ [Hb | Hb]]; congruence.
  - intros Bwrk'.
    destruct (accumulate_Ok N B j HN HB Hj Awrk w
                {| mC := mC m; mBwrk := Bwrk'; mlog := mlog m |} Hinit)
      as (m' & Hrun & _).
    by exists m'.
Qed.

Lemma accumulation_ignores_scratch_witness :
  (exists m' L,
     accumulate 2 (ones 4) 1 [Some f32_one; Some f32_one] (member 0 1 0)
       {| mC := zeros 4; mBwrk := zeros 2; mlog := [] |}
     = Ok (dot_private 2 [Some f32_one; Some f32_one] (ones 4) 1, m') /\
     mlog m' = L ++ [] /\
     forall a, a ∈ L -> acc_buf a <> BufBwrk) /\
  forall Bwrk' : list float32,
    exists m',
      accumulate 2 (ones 4) 1 [Some f32_one; Some f32_one] (member 0 1 0)
        {| mC := zeros 4; mBwrk := Bwrk'; mlog := [] |}
      = Ok (dot_private 2 [Some f32_one; Some f32_one] (ones 4) 1, m').
Proof.
  apply (accumulation_ignores_scratch 2 (ones 4) 1
           [Some f32_one; Some f32_one] (member 0 1 0)
           {| mC := zeros 4; mBwrk := zeros 2; mlog := [] |}).
  - unfold INT_MAX. lia.
  - reflexivity.
  - lia.
  - intros k Hk. exists f32_one.
    assert (Hcases : k = 0 \/ k = 1) by lia.
    destruct Hcases as [-> | ->]; reflexivity.
Defined.

(** C7.  A work-item whose index is out of range does nothing: in [mmul]
    when [(i, j)] lies outside [[0, N) x [0, N)], in the tiled kernel when
    [i >= N].  The memory it leaves is the memory it found, C, scratch and
    access log alike. *)
Theorem out_of_range_worker_is_idle (N : Z) (A B : list float32)
  (w : work_item) (m : kmem) :
  0 <= global_id0 w -> 0 <= global_id1 w ->
  (~ (0 <= global_id0 w < N /\ 0 <= global_id1 w < N) ->
   mmul N A B w m = Ok (tt, m)) /\
  (N <= global_id0 w ->
   optimized_rowCPerWorkItemAPrivateBLocal_mmul N A B w m = Ok (tt, m)).
Proof.
  intros Hi Hj. split.
  - intros Hout. unfold mmul.
    destruct (Z.ltb_spec (global_id0 w) N) as [Hlt | Hge]; [| done].
    destruct (Z.ltb_spec (global_id1 w) N) as [Hlt' | Hge']; [| done].
    destruct Hout. lia.
  - intros Hge. unfold optimized_rowCPerWorkItemAPrivateBLocal_mmul.
    destruct (Z.ltb_spec (global_id0 w) N) as [Hlt | _]; [lia | done].
Qed.

Lemma out_of_range_worker_is_idle_witness :
  let m := {| mC := zeros 4; mBwrk := zeros 2; mlog := [] |} in
  mmul 2 (ones 4) (ones 4) (WorkItem 2 1 0 1) m = Ok (tt, m) /\
  optimized_rowCPerWorkItemAPrivateBLocal_mmul 2 (ones 4) (ones 4)
    (WorkItem 2 1 0 1) m = Ok (tt, m).
Proof.
  intros m.
  destruct (out_of_range_worker_is_idle 2 (ones 4) (ones 4)
              (WorkItem 2 1 0 1) m) as [Hnaive Htiled]; [simpl; lia.. |].
  split; [apply Hnaive | apply Htiled]; simpl; lia.
Defined.

(** C8 (as amended).  For every order [N] up to 1024 and every work-item
    with [i < N], the loop of lines 66-68 copies row [i] of [A] into the
    private array, whose size is the constant 1024 whatever [N] is; the
    array is written at the indices [0 .. N-1], all of them inside it. *)
Theorem private_row_within_1024 (N : Z) (A : list float32) (w : work_item)
  (m : kmem) :
  N <= AWRK_SIZE -> is_matrix N A -> 0 <= global_id0 w < N ->
  exists Awrk m' L,
    load_row N A w m = Ok (Awrk, m') /\
    length Awrk = Z.to_nat AWRK_SIZE /\
    row_loaded N A (global_id0 w) Awrk /\
    mlog m' = L ++ mlog m /\
    (forall k, 0 <= k < N -> Access w Wr BufAwrk k ∈ L) /\
    (forall a, a ∈ L -> acc_buf a = BufAwrk ->
       acc_kind a = Wr /\ 0 <= acc_idx a < N /\ acc_idx a < AWRK_SIZE).
Proof.
  intros Hsize HA Hi.
  assert (HN : N * N <= INT_MAX) by (unfold AWRK_SIZE, INT_MAX in *; nia).
  destruct (load_row_Ok N A w HN HA Hi m Hsize)
    as (Awrk & m' & Hrun & Hlen & Hrow & _ & _ & L & HL & Hwr & Hall).
  exists Awrk, m', L. split_and!; [done | done | done | done | done |].
  intros a Ha Hbuf. destruct (Hwr a Ha Hbuf) as [Hkind Hidx].
  split_and!; [done | lia | lia | lia].
Qed.

Lemma private_row_within_1024_witness :
  exists Awrk m' L,
    load_row 2 (ones 4) (member 0 1 1)
      {| mC := zeros 4; mBwrk := zeros 2; mlog := [] |} = Ok (Awrk, m') /\
    length Awrk = Z.to_nat AWRK_SIZE /\
    row_loaded 2 (ones 4) 1 Awrk /\
    mlog m' = L ++ [] /\
    (forall k, 0 <= k < 2 -> Access (member 0 1 1) Wr BufAwrk k ∈ L) /\
    (forall a, a ∈ L -> acc_buf a = BufAwrk ->
       acc_kind a = Wr /\ 0 <= acc_idx a < 2 /\ acc_idx a < AWRK_SIZE).
Proof.
  apply (private_row_within_1024 2 (ones 4) (member 0 1 1)
           {| mC := zeros 4; mBwrk := zeros 2; mlog := [] |}).
  - unfold AWRK_SIZE. lia.
  - reflexivity.
  - simpl. lia.
Defined.

(** C8 as stated fails: with [N = 1025] the private array does not hold
    [N] elements, and the write [Awrk[1024]] of the first work-item leaves
    it. *)
Lemma private_row_overflows_at_1025 :
  load_row 1025 (ones (1025 * 1025)) (member 0 64 0)
    {| mC := zeros (1025 * 1025); mBwrk := zeros 1025; mlog := [] |}
  = Err (OutOfBounds BufAwrk 1024).
Proof.
  apply load_row_overflow.
  - unfold INT_MAX. lia.
  - unfold is_matrix, ones. apply length_replicate.
  - simpl. lia.
  - unfold AWRK_SIZE. lia.
Qed.

(** C9 (as amended).  For every order [N > 0] with [N * N] within [int]
    and all matrices [A] and [B], the launch of [mmul] over the [N x N]
    range ends normally and leaves in every [C[i*N+j]] the accumulation
    [tmp = 0.0f; tmp += A[i*N+k] * B[k*N+j]] for [k = 0 .. N-1] in
    ascending order, each step as the device evaluates it.  On a device
    that rounds the multiplication and the addition separately, C is
    bit for bit the matrix of the sequential reference. *)
Theorem naive_kernel_accumulates_in_order
  (mac : float32 -> float32 -> float32 -> float32) (N : Z)
  (A B : list float32) (m : kmem) :
  0 < N -> N * N <= INT_MAX ->
  is_matrix N A -> is_matrix N B -> is_matrix N (mC m) ->
  exists m',
    naive_launch_with mac N A B m = Ok (tt, m') /\
    (forall i j, 0 <= i < N -> 0 <= j < N ->
       mC m' !! Z.to_nat (i * N + j)
       = Some (accumulate_with mac (Z.to_nat N)
                 (fun k => cell N A i k) (fun k => cell N B k j))) /\
    ((forall t a b, mac t a b = f32_add t (f32_mul a b)) ->
     mC m' = seq_mat_mul_sdot N A B).
Proof.
  intros HNpos HN HA HB HC.
  destruct (naive_launch_Ok_with mac N A B HN HA HB m HC)
    as (m' & Hrun & Hsw & _).
  assert (Hcells : forall i j, 0 <= i < N -> 0 <= j < N ->
    mC m' !! Z.to_nat (i * N + j) = Some (dot_with mac N A B i j)).
  { intros i j Hi Hj.
    by apply (swept_lookup N (mC m) (mC m') _ _ i j Hsw). }
  exists m'. split_and!; [done | done |].
  intros Hmac.
  apply (matrix_eq N); [lia | apply Hsw | apply seq_mat_mul_sdot_length |].
  intros i j Hi Hj. rewrite Hcells, seq_mat_mul_sdot_lookup by done.
  unfold dot_with, dot. f_equal. by apply accumulate_with_separate.
Qed.

Lemma naive_kernel_accumulates_in_order_witness :
  exists m',
    naive_launch_with mac_fused 2 contraction_A contraction_B
      {| mC := zeros 4; mBwrk := zeros 2; mlog := [] |} = Ok (tt, m') /\
    (forall i j, 0 <= i < 2 -> 0 <= j < 2 ->
       mC m' !! Z.to_nat (i * 2 + j)
       = Some (accumulate_with mac_fused (Z.to_nat 2)
                 (fun k => cell 2 contraction_A i k)
                 (fun k => cell 2 contraction_B k j))) /\
    ((forall t a b, mac_fused t a b = f32_add t (f32_mul a b)) ->
     mC m' = seq_mat_mul_sdot 2 contraction_A contraction_B).
Proof.
  apply (naive_kernel_accumulates_in_order mac_fused 2 contraction_A
           contraction_B {| mC := zeros 4; mBwrk := zeros 2; mlog := [] |}).
  - lia.
  - unfold INT_MAX. lia.
  - reflexivity.
  - reflexivity.
  - reflexivity.
Defined.

(** C9 as stated fails: a device may contract [tmp += a * b] into a fused
    multiply-add.  With [A[0,.] = (-1, 1 + 2^-12)] and
    [B[.,0] = (1, 1 + 2^-12)] such a device leaves [2^-11 + 2^-24] in
    [C[0]], where the reference accumulation, which rounds the product
    [(1 + 2^-12)^2] to [1 + 2^-11] before adding, gives [2^-11]. *)
Lemma naive_kernel_differs_under_contraction :
  result_C (naive_launch_with mac_fused 2 contraction_A contraction_B)
    {| mC := zeros 4; mBwrk := zeros 2; mlog := [] |}
  = Ok [S754_finite false 8389632 (-34); f32_zero; f32_zero; f32_zero] /\
  seq_mat_mul_sdot 2 contraction_A contraction_B
  = [f32_pow2 (-11); f32_zero; f32_zero; f32_zero] /\
  result_C (naive_launch_with mac_fused 2 contraction_A contraction_B)
    {| mC := zeros 4; mBwrk := zeros 2; mlog := [] |}
  <> Ok (seq_mat_mul_sdot 2 contraction_A contraction_B).
Proof.
  split_and!; [by vm_compute | by vm_compute |].
  vm_compute. discriminate.
Qed.

(** C10.  The tiled kernel accumulates: launched on a C holding [V], it
    ends with [C[i*N+j] = V[i*N+j] + dot i j] in every cell, so its output
    depends on what C held.  The naive kernel overwrites: its output is the
    same whatever C held. *)
Theorem tiled_accumulates_naive_overwrites (N nloc : Z) (A B : list float32)
  (m : kmem) :
  0 < N <= AWRK_SIZE -> 0 < nloc -> N mod nloc = 0 ->
  is_matrix N A -> is_matrix N B -> is_matrix N (mC m) ->
  length (mBwrk m) = Z.to_nat N ->
  (exists m',
     tiled_launch N nloc N A B m = Ok (tt, m') /\
     forall i j, 0 <= i < N -> 0 <= j < N ->
       mC m' !! Z.to_nat (i * N + j)
       = Some (f32_add (cell N (mC m) i j) (dot N A B i j))) /\
  (forall V' : list float32, is_matrix N V' ->
     result_C (naive_launch N A B)
       {| mC := V'; mBwrk := mBwrk m; mlog := mlog m |}
     = result_C (naive_launch N A B) m).
Proof.
  intros HN Hnloc Hdiv HA HB HC Hlen. split.
  - destruct (tiled_launch_Ok N A B HN HA HB nloc m Hnloc Hdiv HC Hlen)
      as (m' & Hrun & Hsw & _).
    exists m'. split; [done |]. intros i j Hi Hj.
    by apply (swept_lookup N (mC m) (mC m') _ _ i j Hsw).
  - intros V' HV'.
    assert (HNN : N * N <= INT_MAX) by (by apply order_fits_int).
    destruct (naive_launch_reference N A B m ltac:(lia) HNN HA HB HC)
      as (m1 & Hrun1 & Hres1 & _).
    destruct (naive_launch_reference N A B
                {| mC := V'; mBwrk := mBwrk m; mlog := mlog m |}
                ltac:(lia) HNN HA HB HV')
      as (m2 & Hrun2 & Hres2 & _).
    unfold result_C. rewrite Hrun1, Hrun2. by rewrite Hres1, Hres2.
Qed.

Lemma tiled_accumulates_naive_overwrites_witness :
  let m := {| mC := ones 4; mBwrk := zeros 2; mlog := [] |} in
  (exists m',
     tiled_launch 2 1 2 (ones 4) (ones 4) m = Ok (tt, m') /\
     forall i j, 0 <= i < 2 -> 0 <= j < 2 ->
       mC m' !! Z.to_nat (i * 2 + j)
       = Some (f32_add (cell 2 (mC m) i j) (dot 2 (ones 4) (ones 4) i j))) /\
  (forall V' : list float32, is_matrix 2 V' ->
     result_C (naive_launch 2 (ones 4) (ones 4))
       {| mC := V'; mBwrk := mBwrk m; mlog := mlog m |}
     = result_C (naive_launch 2 (ones 4) (ones 4)) m).
Proof.
  intros m.
  apply (tiled_accumulates_naive_overwrites 2 1 (ones 4) (ones 4) m).
  - unfold AWRK_SIZE. lia.
  - lia.
  - reflexivity.
  - reflexivity.
  - reflexivity.
  - reflexivity.
  - reflexivity.
Defined.

(** * Further properties of the driver and the kernels *)

(** ** Stepping through [main] *)

Lemma hbind_Normal {T U} (c : H T) (k : T -> H U) (h h' : host) (t : T) :
  c h = (Normal t, h') -> hbind c k h = k t h'.
Proof. intros Hc. unfold hbind. by rewrite Hc. Qed.

Lemma hbind_call (p : platform) (c : call_site) {U} (k : unit -> H U)
  (h : host) :
  throws p c = None -> hbind (call p c) k h = k tt h.
Proof. intros Hc. unfold hbind, call. by rewrite Hc. Qed.

Lemma hbind_no_return {T U} (c : H T) (k : T -> H U) :
  no_return c -> (forall t, no_return (k t)) -> no_return (hbind c k).
Proof.
  intros Hc Hk h st h'. unfold hbind.
  destruct (c h) as [[t | st' | e | f] h1] eqn:Hch; try discriminate.
  - apply Hk.
  - by destruct (Hc h st' h1).
Qed.

Lemma call_no_return (p : platform) (c : call_site) : no_return (call p c).
Proof. intros h st h'. unfold call. by destruct (throws p c). Qed.

Lemma emit_no_return (e : event) : no_return (emit e).
Proof. by intros h st h'. Qed.

Lemma set_h_C_no_return (f : host -> list float32) : no_return (set_h_C f).
Proof. by intros h st h'. Qed.

Lemma initmat_no_return (p : platform) : no_return (initmat p).
Proof. by intros h st h'. Qed.

Lemma create_buffers_no_return (p : platform) (s : strategy) :
  no_return (create_buffers p s).
Proof.
  apply hbind_no_return; [apply call_no_return |]. by intros _ h st h'.
Qed.

Lemma on_device_no_return (p : platform)
  (kernel : list float32 -> list float32 -> K unit) :
  no_return (on_device p kernel).
Proof.
  intros h st h'. unfold on_device.
  by destruct (kernel _ _ _) as [[[] m] | f].
Qed.

Lemma host_for_no_return (n : nat) (i : Z) (body : Z -> H unit) :
  (forall i, no_return (body i)) -> no_return (host_for n i body).
Proof.
  intros Hbody. revert i. induction n as [|n IH]; intros i; simpl.
  - by intros h st h'.
  - apply hbind_no_return; [apply Hbody | intros _; apply IH].
Qed.

Lemma sequential_rep_no_return (p : platform) (i : Z) :
  no_return (sequential_rep p i).
Proof.
  unfold sequential_rep.
  repeat (apply hbind_no_return; [| intros _]);
    first [apply set_h_C_no_return | apply emit_no_return
          | by intros h st h'].
Qed.

Lemma naive_rep_no_return (p : platform) (i : Z) :
  no_return (naive_rep p i).
Proof.
  unfold naive_rep.
  repeat (apply hbind_no_return; [| intros _]);
    first [apply set_h_C_no_return | apply emit_no_return
          | apply call_no_return | apply on_device_no_return
          | by intros h st h'].
Qed.

Lemma tiled_rep_no_return (p : platform) (i : Z) :
  no_return (tiled_rep p i).
Proof.
  unfold tiled_rep.
  repeat (apply hbind_no_return; [| intros _]);
    first [apply set_h_C_no_return | apply emit_no_return
          | apply call_no_return | apply on_device_no_return
          | idtac].
  - destruct (_ && _).
    + apply hbind_no_return; [apply emit_no_return |].
      intros _. apply on_device_no_return.
    + by intros h st h'.
  - by intros h st h'.
Qed.

Lemma hbind_call_throw (p : platform) (c : call_site) {U} (k : unit -> H U)
  (h : host) (e : cl_error) :
  throws p c = Some e -> hbind (call p c) k h = (Throw e, h).
Proof. intros Hc. unfold hbind, call. by rewrite Hc. Qed.

(** The only [return] inside the [try] block is the one of line 122. *)
Lemma main_try_return (p : platform) (h h' : host) (st : Z) :
  main_try p h = (Return st, h') ->
  throws p ParseArguments = None /\ throws p GetDeviceList = None /\
  numDevices p <= deviceIndex p /\ st = EXIT_FAILURE.
Proof.
  unfold main_try. intros Htry.
  destruct (throws p ParseArguments) as [e |] eqn:Hparse.
  { by rewrite (hbind_call_throw _ _ _ _ _ Hparse) in Htry. }
  rewrite (hbind_call _ _ _ _ Hparse) in Htry.
  destruct (throws p GetDeviceList) as [e |] eqn:Hlist.
  { by rewrite (hbind_call_throw _ _ _ _ _ Hlist) in Htry. }
  rewrite (hbind_call _ _ _ _ Hlist) in Htry.
  destruct (Z.leb_spec (numDevices p) (deviceIndex p)) as [Hle | Hlt].
  - split_and!; [done | done | done |].
    unfold hbind, emit, return_ in Htry. by injection Htry as <- _.
  - exfalso. revert Htry.
    match goal with
    | |- ?c h = _ -> False =>
        assert (Hrest : no_return c); [| by apply Hrest]
    end.
    repeat (apply hbind_no_return; [| intros _]);
      first [apply call_no_return | apply emit_no_return
            | apply initmat_no_return | apply create_buffers_no_return
            | apply host_for_no_return; intros i;
              first [apply sequential_rep_no_return
                    | apply naive_rep_no_return
                    | apply tiled_rep_no_return]
            | by intros h0 st0 h1].
Qed.

(** X1.  Of the runs in which the host vectors are allocated and no
    exception other than [cl::Error] is raised: [main] returns
    [EXIT_FAILURE] exactly when [parseArguments] and [getDeviceList]
    return and the device index check of lines 119-123 fails.  In every
    other such run, also when a [cl::Error] is raised before or after the
    check, [main] returns [EXIT_SUCCESS], unless a kernel has run into
    undefined behaviour, in which case nothing is known of the end of the
    process. *)
Theorem main_returns_failure_only_at_device_check (p : platform) :
  (snd (main p) = Exit EXIT_FAILURE <->
   throws p ParseArguments = None /\ throws p GetDeviceList = None /\
   numDevices p <= deviceIndex p) /\
  (~ (throws p ParseArguments = None /\ throws p GetDeviceList = None /\
      numDevices p <= deviceIndex p) ->
   snd (main p) = Exit EXIT_SUCCESS \/ exists f, snd (main p) = Crash f).
Proof.
  split; [split |].
  - unfold main.
    destruct (main_try p (initial_host p)) as [[t | st | e | f] h] eqn:Htry;
      simpl; intros Hexit; try discriminate Hexit.
    apply main_try_return in Htry as (Hparse & Hlist & Hle & _). done.
  - intros (Hparse & Hlist & Hle). unfold main, main_try.
    rewrite (hbind_call _ _ _ _ Hparse), (hbind_call _ _ _ _ Hlist).
    replace (numDevices p <=? deviceIndex p) with true
      by (symmetry; by apply Z.leb_le).
    reflexivity.
  - intros Hcheck. unfold main.
    destruct (main_try p (initial_host p)) as [[t | st | e | f] h] eqn:Htry;
      simpl.
    + by left.
    + apply main_try_return in Htry as (Hparse & Hlist & Hle & _).
      by destruct Hcheck.
    + by left.
    + right. by exists f.
Qed.

(** ** The repetition loops *)

(** The invariant rule for [for (int i = 0; i < COUNT; i++)] when no
    repetition raises or returns. *)
Lemma host_for_rule (I : nat -> host -> Prop) (body : Z -> H unit)
  (n : nat) (i0 : Z) :
  (forall k h, (k < n)%nat -> I k h ->
     exists h', body (i0 + Z.of_nat k) h = (Normal tt, h') /\
                I (Datatypes.S k) h') ->
  forall h, I O h ->
    exists h', host_for n i0 body h = (Normal tt, h') /\ I n h'.
Proof.
  revert I i0. induction n as [|n IH]; intros I i0 Hstep h HI; simpl.
  - by exists h.
  - destruct (Hstep O h ltac:(lia) HI) as (h1 & Hb & HI1).
    rewrite Z.add_0_r in Hb. rewrite (hbind_Normal _ _ _ _ _ Hb).
    destruct (IH (fun k => I (Datatypes.S k)) (i0 + 1)) with (h := h1)
      as (h2 & Hrun & HI2); [| done | by exists h2].
    intros k h' Hk HIk.
    destruct (Hstep (Datatypes.S k) h' ltac:(lia) HIk) as (h'' & Hb' & HI').
    exists h''. split; [| done]. rewrite <- Hb'. f_equal. lia.
Qed.

Lemma rep_trace_S (s : strategy) (N : Z) (C : nat -> list float32)
  (n : nat) :
  rep_trace s N C (Datatypes.S n)
  = rep_trace s N C n ++ [Invoke s; Results s N (C n)].
Proof.
  unfold rep_trace. by rewrite seq_S, flat_map_app.
Qed.

Lemma tiled_after_matrix (N : Z) (A B V : list float32) (n : nat) :
  is_matrix N (tiled_after N A B V n).
Proof.
  unfold is_matrix, tiled_after. by rewrite length_fmap, length_seqZ.
Qed.

Lemma tiled_after_lookup (N : Z) (A B V : list float32) (n : nat)
  (i j : Z) :
  0 <= i < N -> 0 <= j < N ->
  tiled_after N A B V n !! Z.to_nat (i * N + j)
  = Some (add_times n (dot N A B i j) (cell N V i j)).
Proof.
  intros Hi Hj. pose proof (index_bounds N i j Hi Hj) as Hb.
  unfold tiled_after. rewrite list_lookup_fmap.
  rewrite lookup_seqZ_lt by lia. simpl.
  rewrite Z2Nat.id by lia. rewrite Z.add_0_l.
  replace ((i * N + j) / N) with i by (apply Z.div_unique with j; lia).
  replace ((i * N + j) mod N) with j by (apply Z.mod_unique with i; lia).
  done.
Qed.

Lemma tiled_after_O (N : Z) (A B V : list float32) :
  0 <= N -> is_matrix N V -> tiled_after N A B V O = V.
Proof.
  intros HN HV. apply (matrix_eq N); [done | apply tiled_after_matrix | done |].
  intros i j Hi Hj. rewrite tiled_after_lookup by done. simpl.
  symmetry. by apply matrix_lookup.
Qed.


Section loops.
Variable p : platform.
Hypothesis Hquiet : forall c, throws p c = None.
Hypothesis HN : 0 < ORDER p <= AWRK_SIZE.


(** [n] repetitions of the tiled loop. *)
Lemma tiled_loop (n : nat) (h : host) :
  0 < ORDER p / 16 -> ORDER p mod (ORDER p / 16) = 0 ->
  length (fresh_Bwrk p) = Z.to_nat (ORDER p) ->
  is_matrix (ORDER p) (d_a h) -> is_matrix (ORDER p) (d_b h) ->
  is_matrix (ORDER p) (d_c h) ->
  exists h',
    host_for n 0 (tiled_rep p) h = (Normal tt, h') /\
    d_c h' = tiled_after (ORDER p) (d_a h) (d_b h) (d_c h) n /\
    rev (out h')
    = rev (out h)
      ++ rep_trace Tiled (ORDER p)
           (fun k => tiled_after (ORDER p) (d_a h) (d_b h) (d_c h)
                       (Datatypes.S k)) n.
Proof.
  intros Hnloc Hdiv HBw HA HB HC.
  pose (I := fun (k : nat) (h' : host) =>
    d_a h' = d_a h /\ d_b h' = d_b h /\
    d_c h' = tiled_after (ORDER p) (d_a h) (d_b h) (d_c h) k /\
    rev (out h')
    = rev (out h)
      ++ rep_trace Tiled (ORDER p)
           (fun k => tiled_after (ORDER p) (d_a h) (d_b h) (d_c h)
                       (Datatypes.S k)) k).
  destruct (host_for_rule I (tiled_rep p) n 0) with (h := h)
    as (h' & Hrun & _ & _ & Hc & Hout).
  - intros k h1 _ (Ha & Hb & Hc & Hout).
    destruct (tiled_rep_accumulates p (0 + Z.of_nat k) h1)
      as (h2 & Hrep & Ha2 & Hb2 & _ & Hout2 & HM2 & Hcells);
      [done | done | done | by rewrite Ha | by rewrite Hb
      | rewrite Hc; apply tiled_after_matrix | done | apply Hquiet.. |].
    assert (Hc2 : d_c h2
                  = tiled_after (ORDER p) (d_a h) (d_b h) (d_c h)
                      (Datatypes.S k)).
    { apply (matrix_eq (ORDER p)); [lia | done | apply tiled_after_matrix |].
      intros r c Hr Hcol. rewrite Hcells by done.
      rewrite tiled_after_lookup by done. rewrite Hc, Ha, Hb.
      unfold cell at 1. by rewrite tiled_after_lookup by done. }
    exists h2. split; [done |]. unfold I. split_and!.
    + congruence.
    + congruence.
    + done.
    + rewrite Hout2, rep_trace_S. simpl. rewrite Hout, Hc2.
      by rewrite <- !app_assoc.
  - unfold I. split_and!; [done | done | |].
    + symmetry. apply tiled_after_O; [lia | done].
    + unfold rep_trace. simpl. by rewrite app_nil_r.
  - by exists h'.
Qed.
End loops.


Lemma readbacks_app (s : strategy) (t1 t2 : list event) :
  readbacks s (t1 ++ t2) = readbacks s t1 ++ readbacks s t2.
Proof. unfold readbacks. apply omap_app. Qed.

Lemma readbacks_rep_trace (s s' : strategy) (N : Z)
  (C : nat -> list float32) (n : nat) :
  readbacks s (rep_trace s' N C n)
  = if decide (s' = s) then C <$> seq 0 n else [].
Proof.
  induction n as [|n IH].
  - by case_decide.
  - rewrite rep_trace_S, readbacks_app, IH, seq_S, fmap_app.
    unfold readbacks. simpl. case_decide; [done |]. by rewrite app_nil_r.
Qed.




(** ** A whole run without errors *)






(** X4.  The tiled loop of lines 241-258, started with [d_c] holding [V]:
    when nothing raises, repetition [k] hands to [results] the matrix with
    [V[i*N+j] + dot + ... + dot] ([k+1] additions) in every cell, and
    after [n] repetitions [d_c] holds [V] with the product added [n]
    times.  Zeroing [h_C] at the start of a repetition changes nothing. *)
Theorem tiled_repetitions_accumulate (p : platform) (n : nat) (h : host) :
  (forall c, throws p c = None) ->
  0 < ORDER p <= AWRK_SIZE ->
  0 < ORDER p / 16 -> ORDER p mod (ORDER p / 16) = 0 ->
  length (fresh_Bwrk p) = Z.to_nat (ORDER p) ->
  is_matrix (ORDER p) (d_a h) -> is_matrix (ORDER p) (d_b h) ->
  is_matrix (ORDER p) (d_c h) ->
  exists h',
    host_for n 0 (tiled_rep p) h = (Normal tt, h') /\
    readbacks Tiled (rev (out h'))
    = readbacks Tiled (rev (out h))
      ++ ((fun k => tiled_after (ORDER p) (d_a h) (d_b h) (d_c h)
                      (Datatypes.S k)) <$> seq 0 n) /\
    (forall k i j, 0 <= i < ORDER p -> 0 <= j < ORDER p ->
       tiled_after (ORDER p) (d_a h) (d_b h) (d_c h) k
         !! Z.to_nat (i * ORDER p + j)
       = Some (add_times k (dot (ORDER p) (d_a h) (d_b h) i j)
                 (cell (ORDER p) (d_c h) i j))) /\
    forall i j, 0 <= i < ORDER p -> 0 <= j < ORDER p ->
      d_c h' !! Z.to_nat (i * ORDER p + j)
      = Some (add_times n (dot (ORDER p) (d_a h) (d_b h) i j)
                (cell (ORDER p) (d_c h) i j)).
Proof.
  intros Hquiet HN Hnloc Hdiv HBw HA HB HC.
  destruct (tiled_loop p Hquiet HN n h Hnloc Hdiv HBw HA HB HC)
    as (h' & Hrun & Hc & Hout).
  exists h'. split_and!; [done | | |].
  - rewrite Hout, readbacks_app, readbacks_rep_trace.
    by rewrite decide_True by done.
  - intros k i j Hi Hj. by apply tiled_after_lookup.
  - intros i j Hi Hj. rewrite Hc. by apply tiled_after_lookup.
Qed.

Lemma tiled_repetitions_accumulate_witness :
  let p := constant_run 16 3 no_error in
  let h := {| h_A := ones 256; h_B := ones 256; h_C := zeros 256;
              d_a := ones 256; d_b := ones 256; d_c := ones 256;
              out := [] |} in
  exists h',
    host_for 3 0 (tiled_rep p) h = (Normal tt, h') /\
    readbacks Tiled (rev (out h'))
    = readbacks Tiled (rev (out h))
      ++ ((fun k => tiled_after (ORDER p) (d_a h) (d_b h) (d_c h)
                      (Datatypes.S k)) <$> seq 0 3) /\
    (forall k i j, 0 <= i < ORDER p -> 0 <= j < ORDER p ->
       tiled_after (ORDER p) (d_a h) (d_b h) (d_c h) k
         !! Z.to_nat (i * ORDER p + j)
       = Some (add_times k (dot (ORDER p) (d_a h) (d_b h) i j)
                 (cell (ORDER p) (d_c h) i j))) /\
    forall i j, 0 <= i < ORDER p -> 0 <= j < ORDER p ->
      d_c h' !! Z.to_nat (i * ORDER p + j)
      = Some (add_times 3 (dot (ORDER p) (d_a h) (d_b h) i j)
                (cell (ORDER p) (d_c h) i j)).
Proof.
  intros p h. apply (tiled_repetitions_accumulate p 3 h).
  - intros c. reflexivity.
  - unfold AWRK_SIZE. simpl. lia.
  - reflexivity.
  - reflexivity.
  - reflexivity.
  - reflexivity.
  - reflexivity.
  - reflexivity.
Defined.

(** ** Ownership of the cells of C *)

(** X5.  A work-item of [mmul] inside the grid stores its dot product in
    its own cell [C[i*N+j]] and changes no other cell of C and nothing in
    the scratch. *)
Theorem mmul_writes_only_its_cell (N : Z) (A B : list float32)
  (w : work_item) (m : kmem) :
  N * N <= INT_MAX ->
  is_matrix N A -> is_matrix N B -> is_matrix N (mC m) ->
  0 <= global_id0 w < N -> 0 <= global_id1 w < N ->
  exists m',
    mmul N A B w m = Ok (tt, m') /\
    mC m' !! Z.to_nat (global_id0 w * N + global_id1 w)
    = Some (dot N A B (global_id0 w) (global_id1 w)) /\
    (forall n, n <> Z.to_nat (global_id0 w * N + global_id1 w) ->
       mC m' !! n = mC m !! n) /\
    length (mC m') = length (mC m) /\
    mBwrk m' = mBwrk m.
Proof.
  intros HN HA HB HC Hi Hj.
  destruct (mmul_in_grid N A B HN HA HB w m HC Hi Hj)
    as (m' & Hrun & HC' & HBw).
  pose proof (index_bounds N _ _ Hi Hj) as Hb.
  exists m'. rewrite HC'. split_and!; [done | | | | done].
  - apply list_lookup_insert_eq. rewrite HC. lia.
  - intros n Hn. by apply list_lookup_insert_ne.
  - apply length_insert.
Qed.

Lemma mmul_writes_only_its_cell_witness :
  let w := WorkItem 1 0 0 1 in
  let m := {| mC := zeros 4; mBwrk := zeros 2; mlog := [] |} in
  exists m',
    mmul 2 (ones 4) (ones 4) w m = Ok (tt, m') /\
    mC m' !! Z.to_nat (global_id0 w * 2 + global_id1 w)
    = Some (dot 2 (ones 4) (ones 4) (global_id0 w) (global_id1 w)) /\
    (forall n, n <> Z.to_nat (global_id0 w * 2 + global_id1 w) ->
       mC m' !! n = mC m !! n) /\
    length (mC m') = length (mC m) /\
    mBwrk m' = mBwrk m.
Proof.
  intros w m. apply (mmul_writes_only_its_cell 2 (ones 4) (ones 4) w m).
  - unfold INT_MAX. lia.
  - reflexivity.
  - reflexivity.
  - reflexivity.
  - simpl. lia.
  - simpl. lia.
Defined.

(** X6.  A work-group of the tiled kernel whose members all pass the guard
    adds the dot products to the rows of C that belong to its members and
    leaves every other row as it was. *)
Theorem team_updates_only_its_rows (N : Z) (A B : list float32)
  (g nloc : Z) (m : kmem) :
  0 < N <= AWRK_SIZE ->
  is_matrix N A -> is_matrix N B -> is_matrix N (mC m) ->
  length (mBwrk m) = Z.to_nat N ->
  0 <= g -> 0 < nloc -> (g + 1) * nloc <= N ->
  exists m',
    run_team N A B (team_members g nloc) m = Ok (tt, m') /\
    forall i j, 0 <= i < N -> 0 <= j < N ->
      mC m' !! Z.to_nat (i * N + j)
      = Some (if decide (g * nloc <= i < (g + 1) * nloc)
              then f32_add (cell N (mC m) i j) (dot N A B i j)
              else cell N (mC m) i j).
Proof.
  intros HN HA HB HC HBw Hg Hnloc Hrows.
  assert (HD : forall i j : Z, False -> ~ team_row g nloc i)
    by (by intros i j []).
  destruct (run_team_Ok N A B HN HA HB g nloc Hg Hnloc Hrows (mC m)
              (fun _ _ => False) m HD HBw)
    as (m' & Hrun & Hsw & _).
  { apply swept_start; [done |]. by intros i j _ _ []. }
  destruct Hsw as [_ Hsw].
  exists m'. split; [done |]. intros i j Hi Hj.
  destruct (Hsw i j Hi Hj) as [Hin Hout]. case_decide as Hrow.
  - apply Hin. by right.
  - apply Hout. by intros [[] | Hteam].
Qed.

Lemma team_updates_only_its_rows_witness :
  let m := {| mC := ones 16; mBwrk := zeros 4; mlog := [] |} in
  exists m',
    run_team 4 (ones 16) (ones 16) (team_members 1 2) m = Ok (tt, m') /\
    forall i j, 0 <= i < 4 -> 0 <= j < 4 ->
      mC m' !! Z.to_nat (i * 4 + j)
      = Some (if decide (1 * 2 <= i < (1 + 1) * 2)
              then f32_add (cell 4 (mC m) i j) (dot 4 (ones 16) (ones 16) i j)
              else cell 4 (mC m) i j).
Proof.
  intros m.
  apply (team_updates_only_its_rows 4 (ones 16) (ones 16) 1 2 m).
  - unfold AWRK_SIZE. lia.
  - reflexivity.
  - reflexivity.
  - reflexivity.
  - reflexivity.
  - lia.
  - lia.
  - lia.
Defined.

(** ** The scratch after staging *)

(** X7.  When the members of a team have staged column [j] (lines 70-71)
    and meet at the barrier, the scratch holds the column,
    [Bwrk[k] = B[k*N+j]] for every [k] in [[0, N)], and C is as it was. *)
Theorem staged_scratch_holds_column (N : Z) (B : list float32)
  (j g nloc : Z) (m : kmem) :
  N * N <= INT_MAX -> N + nloc <= INT_MAX + 1 ->
  is_matrix N B -> length (mBwrk m) = Z.to_nat N ->
  0 <= j < N -> 0 < nloc ->
  exists m',
    team_stage N B j (team_members g nloc) m = Ok (tt, m') /\
    mC m' = mC m /\
    length (mBwrk m') = Z.to_nat N /\
    forall k, 0 <= k < N ->
      mBwrk m' !! Z.to_nat k = B !! Z.to_nat (k * N + j).
Proof.
  intros HN Hmax HB Hlen Hj Hnloc.
  destruct (team_stage_Ok N B j g nloc HN HB Hj Hnloc Hmax m Hlen)
    as (m' & Hrun & HC & Hlen' & Hcont & _).
  exists m'. split_and!; [done | done | done |].
  intros k Hk. rewrite Hcont by done. symmetry. by apply matrix_lookup.
Qed.

Lemma staged_scratch_holds_column_witness :
  let m := {| mC := zeros 49; mBwrk := zeros 7; mlog := [] |} in
  exists m',
    team_stage 7 (ones 49) 2 (team_members 0 3) m = Ok (tt, m') /\
    mC m' = mC m /\
    length (mBwrk m') = Z.to_nat 7 /\
    forall k, 0 <= k < 7 ->
      mBwrk m' !! Z.to_nat k = ones 49 !! Z.to_nat (k * 7 + 2).
Proof.
  intros m. apply (staged_scratch_holds_column 7 (ones 49) 2 0 3 m).
  - unfold INT_MAX. lia.
  - unfold INT_MAX. lia.
  - reflexivity.
  - reflexivity.
  - lia.
  - lia.
Defined.

(** ** Orders above the size of the private array *)

(** X8.  For every order above 1024 (with [N * N] within [int]) each
    work-item of the tiled kernel that passes the guard runs off the end
    of [Awrk] at index 1024 while copying its row, and so does every
    launch over [N] work-items whose local size divides [N]. *)
Theorem tiled_kernel_overflows_above_1024 (N : Z) (A B : list float32)
  (m : kmem) :
  AWRK_SIZE < N -> N * N <= INT_MAX -> is_matrix N A ->
  (forall w, 0 <= global_id0 w < N ->
     optimized_rowCPerWorkItemAPrivateBLocal_mmul N A B w m
     = Err (OutOfBounds BufAwrk AWRK_SIZE)) /\
  (forall nloc, 0 < nloc -> N mod nloc = 0 ->
     tiled_launch N nloc N A B m = Err (OutOfBounds BufAwrk AWRK_SIZE)).
Proof.
  intros Hsize HN HA. split.
  - intros w Hi. unfold optimized_rowCPerWorkItemAPrivateBLocal_mmul.
    replace (global_id0 w <? N) with true by (symmetry; apply Z.ltb_lt; lia).
    apply bind_Err. by apply load_row_overflow.
  - intros nloc Hnloc Hdiv. unfold tiled_launch.
    assert (Hle : nloc <= N).
    { destruct (Z.le_gt_cases nloc N) as [| Hgt]; [done |].
      rewrite Z.mod_small in Hdiv by (unfold AWRK_SIZE in *; lia).
      unfold AWRK_SIZE in *. lia. }
    assert (Hgroups : 0 < N / nloc) by (apply Z.div_str_pos; lia).
    rewrite seqZ_cons by done. simpl. apply bind_Err.
    unfold run_team.
    replace (forallb (fun w => global_id0 w <? N) (team_members 0 nloc))
      with true.
    + apply bind_Err. unfold team_members.
      rewrite seqZ_cons by lia. simpl. apply bind_Err.
      apply load_row_overflow; [done | done | simpl; lia | done].
    + symmetry. apply forallb_forall. intros w Hw.
      apply list_elem_of_In, list_elem_of_lookup in Hw as [n Hn].
      apply team_members_lookup in Hn as [-> Hn].
      apply Z.ltb_lt. simpl. lia.
Qed.

Lemma tiled_kernel_overflows_above_1024_witness :
  let N := 1040 in
  let m := {| mC := zeros (N * N); mBwrk := zeros N; mlog := [] |} in
  optimized_rowCPerWorkItemAPrivateBLocal_mmul N (ones (N * N))
    (ones (N * N)) (member 0 (N / 16) 0) m
  = Err (OutOfBounds BufAwrk AWRK_SIZE) /\
  tiled_launch N (N / 16) N (ones (N * N)) (ones (N * N)) m
  = Err (OutOfBounds BufAwrk AWRK_SIZE).
Proof.
  intros N m.
  destruct (tiled_kernel_overflows_above_1024 N (ones (N * N))
              (ones (N * N)) m) as [Hitem Hlaunch].
  - unfold AWRK_SIZE, N. lia.
  - unfold INT_MAX, N. lia.
  - unfold is_matrix, ones. apply length_replicate.
  - split.
    + apply Hitem. unfold N. simpl. lia.
    + apply Hlaunch; unfold N; reflexivity.
Defined.

(** ** The tiled kernel on a zeroed buffer *)

